(** * Grammar Checker add-on (openai-grammar-checker.js): model and properties

    A shallow embedding of the Apps Script file [openai-grammar-checker.js].
    The script's own functions are translated one by one and keep their
    names.  What the script takes from its host is modelled next to them:

    - JavaScript strings, as sequences of UTF-16 code units;
    - the regular expressions the script uses, with the backtracking
      matcher of ECMAScript ([String.prototype.match] and
      [String.prototype.replace]);
    - [JSON.parse], and the few operations on parsed values the script
      performs (property reads, truthiness, [length]);
    - the per-user property store, the user cache, the sheets and the
      user-interface calls, as an explicit world threaded through a small
      state-and-exception monad.

    Console logging is left out: it changes nothing the script or the user
    of the spreadsheet can observe. *)

From Stdlib Require Import String Ascii NArith ZArith List Lia DecimalString.
From Stdlib Require DecimalPos DecimalN.
From stdpp Require Import base list gmap.

Local Open Scope N_scope.

(** ** JavaScript strings *)

(** A string is the sequence of its UTF-16 code units. *)
Definition jsstring : Type := list N.

(** [js "abc"] is the string whose code units are the bytes of the literal;
    it is used for ASCII text only. *)
Definition js (s : string) : jsstring :=
  map N_of_ascii (list_ascii_of_string s).

(** The code unit of an ASCII character. *)
Definition ch (a : ascii) : N := N_of_ascii a.

(** The double quote, U+0022. *)
Definition dquote : N := 34.

(** [jq] reads a literal in which every apostrophe stands for a double
    quote, so that JSON text can be written down legibly. *)
Definition jq (s : string) : jsstring :=
  map (fun c => if c =? ch "'" then dquote else c) (js s).

(** WhiteSpace and LineTerminator code points of ECMAScript: the characters
    [String.prototype.trim] strips and the class [\s] matches. *)
Definition isWhiteSpace (c : N) : bool :=
  ((9 <=? c) && (c <=? 13)) || (c =? 32) || (c =? 160) || (c =? 5760)
  || ((8192 <=? c) && (c <=? 8202)) || (c =? 8232) || (c =? 8233)
  || (c =? 8239) || (c =? 8287) || (c =? 12288) || (c =? 65279).

(** LineTerminator: the characters [.] does not match. *)
Definition isLineTerminator (c : N) : bool :=
  (c =? 10) || (c =? 13) || (c =? 8232) || (c =? 8233).

Fixpoint trimStart (s : jsstring) : jsstring :=
  match s with
  | c :: s' => if isWhiteSpace c then trimStart s' else s
  | [] => []
  end.

Definition trimEnd (s : jsstring) : jsstring :=
  rev (trimStart (rev s)).

(** [String.prototype.trim] *)
Definition trim (s : jsstring) : jsstring := trimEnd (trimStart s).

(** [Number.prototype.toString] on a non-negative integer: its decimal
    digits. *)
Definition N_toString (n : N) : jsstring :=
  js (NilEmpty.string_of_uint (N.to_uint n)).

(** [Array.prototype.includes] on an array of strings. *)
Definition includes (l : list jsstring) (x : jsstring) : bool :=
  bool_decide (x ∈ l).

(** ** Regular expressions *)

Module RegExp.

Inductive char_class : Type :=
| ClassSpace      (* \s *)
| ClassNonSpace.  (* \S *)

(** The patterns the script uses.  A capture group matches as its body:
    the script reads only element 0 of a match, the whole matched text. *)
Inductive regex : Type :=
| Empty                          (* (?:) *)
| Chr (c : N)                    (* a pattern character *)
| Dot                            (* . *)
| Esc (cl : char_class)          (* \s or \S *)
| Class (cls : list char_class)  (* [...] of class escapes *)
| Seq (r1 r2 : regex)
| Alt (r1 r2 : regex)            (* r1|r2 *)
| Star (greedy : bool) (r : regex)  (* r* and r*? *)
| Group (r : regex).             (* (r) *)

(** A literal run of pattern characters. *)
Fixpoint lit (s : jsstring) : regex :=
  match s with
  | [] => Empty
  | [c] => Chr c
  | c :: s' => Seq (Chr c) (lit s')
  end.

Definition in_class (cl : char_class) (c : N) : bool :=
  match cl with
  | ClassSpace => isWhiteSpace c
  | ClassNonSpace => negb (isWhiteSpace c)
  end.

(** Matching one character against a test. *)
Definition one (p : N -> bool) (s : jsstring)
    (k : jsstring -> option jsstring) : option jsstring :=
  match s with
  | c :: s' => if p c then k s' else None
  | [] => None
  end.

Definition orelse (a b : option jsstring) : option jsstring :=
  match a with
  | Some x => Some x
  | None => b
  end.

(** The iterations of a star.  [step] matches the body once; an
    iteration that consumes nothing is rejected, as in ECMAScript, so
    that [length s] iterations are all that can follow from [s].  A
    greedy star tries one more iteration before it goes on with [k]; a
    lazy star goes on with [k] first. *)
Fixpoint iterate
    (step : jsstring -> (jsstring -> option jsstring) -> option jsstring)
    (greedy : bool) (k : jsstring -> option jsstring) (n : nat) (s : jsstring)
    {struct n} : option jsstring :=
  let again :=
    match n with
    | O => None
    | S n' =>
        step s (fun s' =>
          if (length s' <? length s)%nat then iterate step greedy k n' s'
          else None)
    end in
  if greedy then orelse again (k s) else orelse (k s) again.

(** The backtracking matcher: [rmatch r s k] matches [r] at the start of
    [s] and hands the rest of the input to the continuation [k]; when [k]
    fails the matcher tries its next alternative.  The result is what is
    left of the input after the whole match. *)
Fixpoint rmatch (r : regex) (s : jsstring)
    (k : jsstring -> option jsstring) {struct r} : option jsstring :=
  match r with
  | Empty => k s
  | Chr c => one (N.eqb c) s k
  | Dot => one (fun x => negb (isLineTerminator x)) s k
  | Esc cl => one (in_class cl) s k
  | Class cls => one (fun x => existsb (fun cl => in_class cl x) cls) s k
  | Seq r1 r2 => rmatch r1 s (fun s1 => rmatch r2 s1 k)
  | Alt r1 r2 => orelse (rmatch r1 s k) (rmatch r2 s k)
  | Star greedy r1 => iterate (rmatch r1) greedy k (length s) s
  | Group r1 => rmatch r1 s k
  end.

(** The result of a successful search: the text before the match, the
    matched text (element 0 of the match array) and the text after. *)
Record match_result : Type := MatchResult {
  before : jsstring;
  matched : jsstring;
  after : jsstring
}.

(** A match anchored at the start of [s]. *)
Definition match_here (r : regex) (s : jsstring) : option match_result :=
  match rmatch r s Some with
  | Some rest =>
      Some (MatchResult [] (take (length s - length rest)%nat s) rest)
  | None => None
  end.

(** [RegExp.prototype.exec] from index 0: the leftmost match. *)
Fixpoint exec (r : regex) (s : jsstring) : option match_result :=
  match match_here r s with
  | Some m => Some m
  | None =>
      match s with
      | [] => None
      | c :: s' =>
          match exec r s' with
          | Some m => Some (MatchResult (c :: before m) (matched m) (after m))
          | None => None
          end
      end
  end.

(** [str.match(r)[0]] for a regular expression without the [g] flag;
    [None] is JavaScript's [null]. *)
Definition String_match (s : jsstring) (r : regex) : option jsstring :=
  matched <$> exec r s.

(** GetSubstitution for a pattern without capture groups: [$$], [$&],
    [$`] and [$'] are expanded; every other [$] stands for itself. *)
Fixpoint GetSubstitution (tmpl matched before after : jsstring) : jsstring :=
  match tmpl with
  | [] => []
  | c :: t =>
      if c =? ch "$" then
        match t with
        | d :: t' =>
            if d =? ch "$" then ch "$" :: GetSubstitution t' matched before after
            else if d =? ch "&" then matched ++ GetSubstitution t' matched before after
            else if d =? ch "`" then before ++ GetSubstitution t' matched before after
            else if d =? ch "'" then after ++ GetSubstitution t' matched before after
            else c :: GetSubstitution t matched before after
        | [] => [c]
        end
      else c :: GetSubstitution t matched before after
  end.

(** The loop of [str.replace(r, tmpl)] for [r] with the [g] flag.
    [done] is the part of the string already passed, [s] the part ahead,
    and [skip] the number of characters ahead that belong to the match
    found last.  After an empty match the search moves on by one
    character. *)
Fixpoint replace_loop (r : regex) (tmpl done s : jsstring) (skip : nat)
    : jsstring :=
  match s with
  | [] =>
      match match_here r [] with
      | Some m => GetSubstitution tmpl [] done []
      | None => []
      end
  | c :: s' =>
      match skip with
      | S skip' => replace_loop r tmpl (done ++ [c]) s' skip'
      | O =>
          match match_here r s with
          | Some m =>
              GetSubstitution tmpl (matched m) done (after m) ++
              match length (matched m) with
              | O => c :: replace_loop r tmpl (done ++ [c]) s' 0
              | S l => replace_loop r tmpl (done ++ [c]) s' l
              end
          | None => c :: replace_loop r tmpl (done ++ [c]) s' 0
          end
      end
  end.

(** [str.replace(r, tmpl)] for a global [r]. *)
Definition String_replace (s : jsstring) (r : regex) (tmpl : jsstring)
    : jsstring :=
  replace_loop r tmpl [] s 0.

(** SyntaxCharacter of the pattern grammar. *)
Definition isSyntaxCharacter (c : N) : bool :=
  bool_decide (c ∈ js "^$\.*+?()[]{}|").

(** [new RegExp(pattern, 'g')].  The model covers the patterns made of
    ordinary characters and [.]; for a pattern that uses any other syntax
    character the result is [None], and the model says nothing about
    it. *)
Fixpoint compile (pattern : jsstring) : option regex :=
  match pattern with
  | [] => Some Empty
  | c :: p =>
      if c =? ch "." then Seq Dot <$> compile p
      else if isSyntaxCharacter c then None
      else Seq (Chr c) <$> compile p
  end.

End RegExp.

(** ** JSON *)

Module JSON.

(** A number literal, kept exactly: its value is
    [(-1)^negative * digits * 10^exp10]. *)
Record number : Type := Number {
  negative : bool;
  digits : N;
  exp10 : Z
}.

#[local] Unset Elimination Schemes.

Inductive json : Type :=
| JNull
| JBool (b : bool)
| JNumber (n : number)
| JString (s : jsstring)
| JArray (elements : list json)
| JObject (members : list (jsstring * json)).

#[local] Set Elimination Schemes.

(** *** Lexical analysis *)

Inductive token : Type :=
| TLBrace | TRBrace | TLBracket | TRBracket | TColon | TComma
| TLiteral (v : json).   (* a string, a number, true, false or null *)

(** Where the scan of a number literal stands. *)
Inductive num_state : Type :=
| NMinus      (* after the sign: a digit must follow *)
| NZero       (* after a leading 0 *)
| NInt        (* inside the integer part *)
| NPoint      (* after the point: a digit must follow *)
| NFrac       (* inside the fraction *)
| NExp        (* after e or E: a sign or a digit must follow *)
| NExpSign    (* after the sign of the exponent: a digit must follow *)
| NExpDigits. (* inside the exponent *)

(** The literal scanned so far: sign, digits of integer part and fraction
    read as one integer, number of fraction digits, sign and value of
    the exponent. *)
Record num_acc : Type := NumAcc {
  acc_negative : bool;
  acc_digits : N;
  acc_scale : N;
  acc_exp_negative : bool;
  acc_exp : N
}.

Definition number_of_acc (a : num_acc) : number :=
  Number (acc_negative a) (acc_digits a)
    ((if acc_exp_negative a then - Z.of_N (acc_exp a) else Z.of_N (acc_exp a))
     - Z.of_N (acc_scale a))%Z.

Inductive lex_mode : Type :=
| LStart                                (* between tokens *)
| LString (acc : jsstring)              (* in a string; [acc] is reversed *)
| LEscape (acc : jsstring)              (* after a backslash *)
| LUnicode (acc : jsstring) (remaining : nat) (v : N)  (* in \uXXXX *)
| LNumber (st : num_state) (a : num_acc)
| LWord (v : json) (rest : jsstring).   (* in true, false or null *)

Definition isDigit (c : N) : bool := (48 <=? c) && (c <=? 57).

Definition hex_value (c : N) : option N :=
  if isDigit c then Some (c - 48)
  else if (65 <=? c) && (c <=? 70) then Some (c - 55)
  else if (97 <=? c) && (c <=? 102) then Some (c - 87)
  else None.

(** JSON white space: tab, line feed, carriage return, space. *)
Definition isJSONWhiteSpace (c : N) : bool :=
  (c =? 9) || (c =? 10) || (c =? 13) || (c =? 32).

Definition accepting (st : num_state) : bool :=
  match st with
  | NZero | NInt | NFrac | NExpDigits => true
  | _ => false
  end.

Definition add_digit (a : num_acc) (d : N) : num_acc :=
  NumAcc (acc_negative a) (10 * acc_digits a + d) (acc_scale a)
    (acc_exp_negative a) (acc_exp a).

Definition add_frac_digit (a : num_acc) (d : N) : num_acc :=
  NumAcc (acc_negative a) (10 * acc_digits a + d) (acc_scale a + 1)
    (acc_exp_negative a) (acc_exp a).

Definition add_exp_digit (a : num_acc) (d : N) : num_acc :=
  NumAcc (acc_negative a) (acc_digits a) (acc_scale a)
    (acc_exp_negative a) (10 * acc_exp a + d).

Definition set_exp_negative (a : num_acc) : num_acc :=
  NumAcc (acc_negative a) (acc_digits a) (acc_scale a) true (acc_exp a).

(** One character inside a number literal; [None] when the character
    cannot continue the literal. *)
Definition num_step (st : num_state) (a : num_acc) (c : N)
    : option (num_state * num_acc) :=
  let d := c - 48 in
  let is_e := (c =? ch "e") || (c =? ch "E") in
  match st with
  | NMinus =>
      if c =? ch "0" then Some (NZero, a)
      else if isDigit c then Some (NInt, add_digit a d) else None
  | NZero =>
      if c =? ch "." then Some (NPoint, a)
      else if is_e then Some (NExp, a) else None
  | NInt =>
      if isDigit c then Some (NInt, add_digit a d)
      else if c =? ch "." then Some (NPoint, a)
      else if is_e then Some (NExp, a) else None
  | NPoint =>
      if isDigit c then Some (NFrac, add_frac_digit a d) else None
  | NFrac =>
      if isDigit c then Some (NFrac, add_frac_digit a d)
      else if is_e then Some (NExp, a) else None
  | NExp =>
      if isDigit c then Some (NExpDigits, add_exp_digit a d)
      else if c =? ch "+" then Some (NExpSign, a)
      else if c =? ch "-" then Some (NExpSign, set_exp_negative a)
      else None
  | NExpSign | NExpDigits =>
      if isDigit c then Some (NExpDigits, add_exp_digit a d) else None
  end.

(** One character between tokens. *)
Definition start_step (c : N) : option (list token * lex_mode) :=
  let zero := NumAcc false 0 0 false 0 in
  if isJSONWhiteSpace c then Some ([], LStart)
  else if c =? ch "{" then Some ([TLBrace], LStart)
  else if c =? ch "}" then Some ([TRBrace], LStart)
  else if c =? ch "[" then Some ([TLBracket], LStart)
  else if c =? ch "]" then Some ([TRBracket], LStart)
  else if c =? ch ":" then Some ([TColon], LStart)
  else if c =? ch "," then Some ([TComma], LStart)
  else if c =? dquote then Some ([], LString [])
  else if c =? ch "-" then Some ([], LNumber NMinus (NumAcc true 0 0 false 0))
  else if c =? ch "0" then Some ([], LNumber NZero zero)
  else if isDigit c then Some ([], LNumber NInt (add_digit zero (c - 48)))
  else if c =? ch "t" then Some ([], LWord (JBool true) (js "rue"))
  else if c =? ch "f" then Some ([], LWord (JBool false) (js "alse"))
  else if c =? ch "n" then Some ([], LWord JNull (js "ull"))
  else None.

(** The character an escape sequence stands for. *)
Definition escape_value (c : N) : option N :=
  if (c =? dquote) || (c =? ch "\") || (c =? ch "/") then Some c
  else if c =? ch "b" then Some 8
  else if c =? ch "f" then Some 12
  else if c =? ch "n" then Some 10
  else if c =? ch "r" then Some 13
  else if c =? ch "t" then Some 9
  else None.

(** One step of the scanner: the tokens completed by the character and
    the mode after it, or [None] for a character the grammar excludes. *)
Definition lex_step (m : lex_mode) (c : N) : option (list token * lex_mode) :=
  match m with
  | LStart => start_step c
  | LString acc =>
      if c =? dquote then Some ([TLiteral (JString (rev acc))], LStart)
      else if c =? ch "\" then Some ([], LEscape acc)
      else if c <? 32 then None
      else Some ([], LString (c :: acc))
  | LEscape acc =>
      if c =? ch "u" then Some ([], LUnicode acc 4 0)
      else match escape_value c with
           | Some x => Some ([], LString (x :: acc))
           | None => None
           end
  | LUnicode acc remaining v =>
      match hex_value c with
      | Some h =>
          match remaining with
          | (0 | 1)%nat => Some ([], LString ((16 * v + h) :: acc))
          | S remaining' => Some ([], LUnicode acc remaining' (16 * v + h))
          end
      | None => None
      end
  | LNumber st a =>
      match num_step st a c with
      | Some (st', a') => Some ([], LNumber st' a')
      | None =>
          if accepting st then
            match start_step c with
            | Some (toks, m') =>
                Some (TLiteral (JNumber (number_of_acc a)) :: toks, m')
            | None => None
            end
          else None
      end
  | LWord v rest =>
      match rest with
      | [] => None
      | x :: rest' =>
          if c =? x then
            match rest' with
            | [] => Some ([TLiteral v], LStart)
            | _ => Some ([], LWord v rest')
            end
          else None
      end
  end.

Fixpoint lex (m : lex_mode) (s : jsstring) : option (list token) :=
  match s with
  | [] =>
      match m with
      | LStart => Some []
      | LNumber st a =>
          if accepting st then Some [TLiteral (JNumber (number_of_acc a))]
          else None
      | _ => None
      end
  | c :: s' =>
      match lex_step m c with
      | Some (toks, m') =>
          match lex m' s' with
          | Some rest => Some (toks ++ rest)
          | None => None
          end
      | None => None
      end
  end.

(** *** Syntactic analysis *)

(** An array or object under construction; members are kept reversed. *)
Inductive frame : Type :=
| FArray (elements : list json)
| FObject (members : list (jsstring * json)) (key : option jsstring).

Inductive parse_state : Type :=
| SValue (stack : list frame)     (* a value must follow *)
| SFirst (stack : list frame)     (* after [: a value or ] *)
| SKey (first : bool) (stack : list frame)
                                  (* a key must follow; after the brace
                                     that opens the object, } may too *)
| SColon (stack : list frame)     (* after a key *)
| SNext (stack : list frame)      (* after a member: , or the closer *)
| SDone (v : json).               (* the text is complete *)

(** A value is complete: it is the result, or a member of the innermost
    open array or object. *)
Definition reduce (v : json) (stack : list frame) : option parse_state :=
  match stack with
  | [] => Some (SDone v)
  | FArray elements :: stack' => Some (SNext (FArray (v :: elements) :: stack'))
  | FObject members (Some key) :: stack' =>
      Some (SNext (FObject ((key, v) :: members) None :: stack'))
  | FObject _ None :: _ => None
  end.

Definition value_step (t : token) (stack : list frame) : option parse_state :=
  match t with
  | TLiteral v => reduce v stack
  | TLBracket => Some (SFirst (FArray [] :: stack))
  | TLBrace => Some (SKey true (FObject [] None :: stack))
  | _ => None
  end.

Definition close_step (t : token) (stack : list frame) : option parse_state :=
  match t, stack with
  | TRBracket, FArray elements :: stack' => reduce (JArray (rev elements)) stack'
  | TRBrace, FObject members None :: stack' => reduce (JObject (rev members)) stack'
  | _, _ => None
  end.

Definition parse_step (st : parse_state) (t : token) : option parse_state :=
  match st with
  | SValue stack => value_step t stack
  | SFirst stack =>
      match t with
      | TRBracket => close_step t stack
      | _ => value_step t stack
      end
  | SKey first stack =>
      match t, stack with
      | TLiteral (JString key), FObject members None :: stack' =>
          Some (SColon (FObject members (Some key) :: stack'))
      | TRBrace, _ => if first then close_step t stack else None
      | _, _ => None
      end
  | SColon stack =>
      match t with
      | TColon => Some (SValue stack)
      | _ => None
      end
  | SNext stack =>
      match t, stack with
      | TComma, FArray _ :: _ => Some (SValue stack)
      | TComma, FObject _ _ :: _ => Some (SKey false stack)
      | _, _ => close_step t stack
      end
  | SDone _ => None
  end.

Fixpoint parse_tokens (st : parse_state) (ts : list token) : option json :=
  match ts with
  | [] =>
      match st with
      | SDone v => Some v
      | _ => None
      end
  | t :: ts' =>
      match parse_step st t with
      | Some st' => parse_tokens st' ts'
      | None => None
      end
  end.

(** [JSON.parse(text)]; [None] stands for the SyntaxError it throws. *)
Definition parse (text : jsstring) : option json :=
  match lex LStart text with
  | Some ts => parse_tokens (SValue []) ts
  | None => None
  end.

(** *** [JSON.stringify] on an array of strings *)

(** A hexadecimal digit, in lower case. *)
Definition hex_digit (n : N) : N := if n <? 10 then 48 + n else 87 + n.

(** The escape [\uXXXX] of a code unit. *)
Definition unicode_escape (c : N) : jsstring :=
  [ch "\"; ch "u"; hex_digit (c / 4096 mod 16); hex_digit (c / 256 mod 16);
   hex_digit (c / 16 mod 16); hex_digit (c mod 16)].

Definition isLeadingSurrogate (c : N) : bool := (55296 <=? c) && (c <=? 56319).
Definition isTrailingSurrogate (c : N) : bool := (56320 <=? c) && (c <=? 57343).

(** A character that is not a surrogate, as it stands in a quoted string. *)
Definition quote_char (c : N) : jsstring :=
  if c =? 8 then [ch "\"; ch "b"]
  else if c =? 9 then [ch "\"; ch "t"]
  else if c =? 10 then [ch "\"; ch "n"]
  else if c =? 12 then [ch "\"; ch "f"]
  else if c =? 13 then [ch "\"; ch "r"]
  else if c =? dquote then [ch "\"; dquote]
  else if c =? ch "\" then [ch "\"; ch "\"]
  else if c <? 32 then unicode_escape c
  else [c].

(** The characters of a string between the quotes: a surrogate pair stands
    as it is, a surrogate on its own is escaped. *)
Fixpoint quote_chars (s : jsstring) : jsstring :=
  match s with
  | [] => []
  | c :: s' =>
      if isLeadingSurrogate c then
        match s' with
        | d :: s'' =>
            if isTrailingSurrogate d then c :: d :: quote_chars s''
            else unicode_escape c ++ quote_chars s'
        | [] => unicode_escape c
        end
      else if isTrailingSurrogate c then unicode_escape c ++ quote_chars s'
      else quote_char c ++ quote_chars s'
  end.

(** QuoteJSONString *)
Definition quote (s : jsstring) : jsstring :=
  dquote :: quote_chars s ++ [dquote].

Fixpoint join_quoted (l : list jsstring) : jsstring :=
  match l with
  | [] => []
  | [s] => quote s
  | s :: l' => quote s ++ ch "," :: join_quoted l'
  end.

(** [JSON.stringify(l)] for an array [l] of strings. *)
Definition stringify_strings (l : list jsstring) : jsstring :=
  ch "[" :: join_quoted l ++ [ch "]"].

(** The tokens of the members of an array of strings. *)
Fixpoint string_tokens (l : list jsstring) : list token :=
  match l with
  | [] => []
  | [s] => [TLiteral (JString s)]
  | s :: l' => TLiteral (JString s) :: TComma :: string_tokens l'
  end.

End JSON.

(** ** JavaScript values read from JSON *)

Module Value.
Import JSON.

(** What an expression over parsed JSON evaluates to: a JSON value, or
    [None] for [undefined]. *)
Definition value : Type := option json.

(** The double nearest to a number literal is zero when the literal's
    digits are all zero, or when its magnitude is at most 2^-1075, half
    the least positive double. *)
Definition is_zero (n : number) : bool :=
  (digits n =? 0)
  || ((exp10 n <? 0)%Z
      && (Z.of_N (digits n) * 2 ^ 1075 <=? 10 ^ (- exp10 n))%Z).

(** ToBoolean: what [!v] negates. *)
Definition truthy (v : value) : bool :=
  match v with
  | None | Some JNull => false
  | Some (JBool b) => b
  | Some (JNumber n) => negb (is_zero n)
  | Some (JString s) => negb (bool_decide (s = []))
  | Some (JArray _) | Some (JObject _) => true
  end.

(** The own property [name] of a parsed object: of members with the same
    key, [JSON.parse] keeps the last. *)
Fixpoint own_property (name : jsstring) (members : list (jsstring * json))
    : value :=
  match members with
  | [] => None
  | (key, v) :: members' =>
      match own_property name members' with
      | Some v' => Some v'
      | None => if bool_decide (key = name) then Some v else None
      end
  end.

(** The elements [[...v]] spreads a string into: its code points, a
    surrogate pair counting as one. *)
Fixpoint code_points (s : jsstring) : list jsstring :=
  match s with
  | [] => []
  | c :: s' =>
      match s' with
      | d :: s'' =>
          if (55296 <=? c) && (c <=? 56319) && (56320 <=? d) && (d <=? 57343)
          then [c; d] :: code_points s''
          else [c] :: code_points s'
      | [] => [[c]]
      end
  end.

(** ToString throws on an object that has a member named [toString]: the
    member is not a function, and [valueOf] yields no primitive.  An
    array is joined from the strings of its elements. *)
Fixpoint toString_throws (v : json) : bool :=
  match v with
  | JObject members =>
      bool_decide (is_Some (own_property (js "toString") members))
  | JArray elements => existsb toString_throws elements
  | _ => false
  end.

(** [elements.includes(s)] for a string [s]. *)
Definition includes_string (elements : list json) (s : jsstring) : bool :=
  existsb (fun v => match v with
                    | JString t => bool_decide (t = s)
                    | _ => false
                    end) elements.

End Value.

(** ** The host: properties, cache, sheets and user interface *)

(** Exceptions raised by built-in operations and by the host; the text of
    their message is the engine's. *)
Inductive host_error : Type :=
| TypeError
| SyntaxError
| FetchException.   (* UrlFetchApp.fetch got no response *)

Inductive exn : Type :=
| Error (message : jsstring)      (* new Error(message), thrown by the script *)
| HostError (e : host_error).

Inductive result (A : Type) : Type :=
| Ok (a : A)
| Throw (e : exn).
Arguments Ok {A} a.
Arguments Throw {A} e.

(** PropertiesService.getUserProperties().  CUSTOM_DICTIONARY holds the
    text [JSON.stringify] makes of an array of strings, which [JSON.parse]
    turns back into the same array ([parse_stringify_strings] below); the
    model keeps the array. *)
Record UserProperties : Type := {
  OPENAI_API_KEY : option jsstring;
  GRAMMAR_CHECKER_LANGUAGE : option jsstring;
  CUSTOM_DICTIONARY : option (list jsstring)
}.

(** CacheService.getUserCache() *)
Record UserCache : Type := {
  ACTIVE_RANGE_A1 : option jsstring;
  ACTIVE_SHEET_ID : option jsstring
}.

(** A sheet: its identifier, and the values of its ranges under the A1
    notation they are addressed by. *)
Record Sheet : Type := {
  getSheetId : N;
  rangeValues : gmap jsstring jsstring
}.

(** The range an action was started on: [range.getA1Notation()] and
    [range.getSheet().getSheetId()]. *)
Record Range : Type := {
  getA1Notation : jsstring;
  getSheet_getSheetId : N
}.

(** One typo of the 'Fix Typos' dialog as it is rendered: its position,
    the value of [typo.word] and the values its replacement buttons are
    made from. *)
Record TypoEntry : Type := {
  entry_index : nat;
  entry_word : Value.value;
  entry_replacements : list JSON.json
}.

Inductive dialog : Type :=
| FixTypos (originalText : jsstring) (typos : list TypoEntry)
| ImproveGrammar (originalText improvedText : jsstring).

(** What the user is shown, in order. *)
Inductive ui_event : Type :=
| Alert (prompt : jsstring)                (* ui.alert(prompt) *)
| AlertHostError (e : host_error)          (* ui.alert('Error: ' + e.message) *)
| Prompt (title prompt : jsstring)         (* ui.prompt(title, prompt, OK_CANCEL) *)
| ModalDialog (d : dialog).                (* ui.showModalDialog(html, title) *)

Record World : Type := {
  props : UserProperties;
  cache : UserCache;
  sheets : list Sheet;
  ui : list ui_event
}.

(** *** The monad of script actions *)

Definition M (A : Type) : Type := World -> result A * World.

Definition ret {A} (a : A) : M A := fun w => (Ok a, w).

Definition bind {A B} (m : M A) (f : A -> M B) : M B :=
  fun w =>
    match m w with
    | (Ok a, w') => f a w'
    | (Throw e, w') => (Throw e, w')
    end.

Definition throw {A} (e : exn) : M A := fun w => (Throw e, w).

(** [try { body } catch (e) { handler(e) }] *)
Definition try_catch {A} (body : M A) (handler : exn -> M A) : M A :=
  fun w =>
    match body w with
    | (Ok a, w') => (Ok a, w')
    | (Throw e, w') => handler e w'
    end.

Declare Scope script_scope.
Delimit Scope script_scope with script.
Notation "x <- c1 ;; c2" := (bind c1 (fun x => c2))
  (at level 100, c1 at next level, right associativity) : script_scope.
Notation "c1 ;; c2" := (bind c1 (fun _ => c2))
  (at level 100, right associativity) : script_scope.
Local Open Scope script_scope.

Definition getProperties : M UserProperties := fun w => (Ok (props w), w).

Definition setProperties (p : UserProperties) : M unit :=
  fun w => (Ok tt, {| props := p; cache := cache w; sheets := sheets w; ui := ui w |}).

Definition getCache : M UserCache := fun w => (Ok (cache w), w).

Definition setCache (c : UserCache) : M unit :=
  fun w => (Ok tt, {| props := props w; cache := c; sheets := sheets w; ui := ui w |}).

Definition getSheets : M (list Sheet) := fun w => (Ok (sheets w), w).

Definition setSheets (l : list Sheet) : M unit :=
  fun w => (Ok tt, {| props := props w; cache := cache w; sheets := l; ui := ui w |}).

(** An interaction with the user is appended to the log. *)
Definition display (e : ui_event) : M unit :=
  fun w => (Ok tt, {| props := props w; cache := cache w; sheets := sheets w;
                     ui := ui w ++ [e] |}).

(** [ui.alert(prompt)] *)
Definition alert (prompt : jsstring) : M unit := display (Alert prompt).

(** [setProperty('OPENAI_API_KEY', key)] *)
Definition setProperty_OPENAI_API_KEY (key : jsstring) : M unit :=
  p <- getProperties ;;
  setProperties {| OPENAI_API_KEY := Some key;
                   GRAMMAR_CHECKER_LANGUAGE := GRAMMAR_CHECKER_LANGUAGE p;
                   CUSTOM_DICTIONARY := CUSTOM_DICTIONARY p |}.

(** [setProperty('CUSTOM_DICTIONARY', JSON.stringify(dict))] *)
Definition setProperty_CUSTOM_DICTIONARY (dict : list jsstring) : M unit :=
  p <- getProperties ;;
  setProperties {| OPENAI_API_KEY := OPENAI_API_KEY p;
                   GRAMMAR_CHECKER_LANGUAGE := GRAMMAR_CHECKER_LANGUAGE p;
                   CUSTOM_DICTIONARY := Some dict |}.

(** [CacheService.getUserCache().put('ACTIVE_RANGE_A1', a1)] *)
Definition put_ACTIVE_RANGE_A1 (a1 : jsstring) : M unit :=
  c <- getCache ;;
  setCache {| ACTIVE_RANGE_A1 := Some a1; ACTIVE_SHEET_ID := ACTIVE_SHEET_ID c |}.

(** [CacheService.getUserCache().put('ACTIVE_SHEET_ID', id)] *)
Definition put_ACTIVE_SHEET_ID (id : jsstring) : M unit :=
  c <- getCache ;;
  setCache {| ACTIVE_RANGE_A1 := ACTIVE_RANGE_A1 c; ACTIVE_SHEET_ID := Some id |}.

(** [sheets[i].getRange(a1).setValue(text)]: the sheet at position [i] of
    the spreadsheet gets [text] as the value of the range.  The model
    keeps one value for each address and does not relate the addresses of
    ranges that share cells; what is stated of a write is stated of the
    range written. *)
Definition Range_setValue (i : nat) (a1 text : jsstring) : M unit :=
  l <- getSheets ;;
  setSheets (alter (fun s => {| getSheetId := getSheetId s;
                                rangeValues := <[a1 := text]> (rangeValues s) |})
               i l).

(** [range.getValue().toString()]: the value of the range in its sheet, the
    empty string when nothing has been written there. *)
Definition Range_getValue (range : Range) : M jsstring :=
  l <- getSheets ;;
  ret (match list_find (fun s => getSheetId s = getSheet_getSheetId range) l with
       | Some (_, s) => default [] (rangeValues s !! getA1Notation range)
       | None => []
       end).

(** ** The script *)

(** A chat message of the request. *)
Record Message : Type := {
  role : jsstring;
  content : jsstring
}.

(** The request [callOpenAI] sends; the payload is kept as the object that
    [JSON.stringify] serialises. *)
Record HttpRequest : Type := {
  url : jsstring;
  method : jsstring;
  contentType : jsstring;
  payload_model : jsstring;
  payload_messages : list Message;
  payload_temperature : JSON.number;
  payload_max_tokens : N;
  headers_Authorization : jsstring;
  muteHttpExceptions : bool
}.

Record HttpResponse : Type := {
  getResponseCode : N;
  getContentText : jsstring
}.

Section Script.
Import JSON Value.

(** [String.prototype.toLowerCase] *)
Variable toLowerCase : jsstring -> jsstring.

(** [UrlFetchApp.fetch]: what the endpoint answers to a request, whatever
    the status, as [muteHttpExceptions] is set; [None] when no response
    arrives, in which case [fetch] throws. *)
Variable UrlFetchApp_fetch : HttpRequest -> option HttpResponse.

(** What the user answers to [ui.prompt(title, prompt, OK_CANCEL)]: the
    text entered when the prompt is closed with OK, [None] otherwise. *)
Variable ui_prompt : jsstring -> jsstring -> option jsstring.

(** [SpreadsheetApp.getActiveRange()]: the range the user has selected,
    if any. *)
Variable getActiveRange : option Range.

(** *** Settings *)

Definition showApiKeyDialog : M unit :=
  let title := js "OpenAI API Key" in
  let prompt := js "Please enter your OpenAI API key:" in
  display (Prompt title prompt) ;;
  match ui_prompt title prompt with
  | Some responseText =>
      let apiKey := trim responseText in
      setProperty_OPENAI_API_KEY apiKey ;;
      alert (js "API key saved successfully!")
  | None => ret tt
  end.

Definition getCustomDictionary : M (list jsstring) :=
  p <- getProperties ;;
  ret (match CUSTOM_DICTIONARY p with
       | Some dict => dict
       | None => []
       end).

Definition addToCustomDictionary (word : jsstring) : M (list jsstring) :=
  let word := trim word in
  if bool_decide (word = []) then getCustomDictionary
  else
    dict <- getCustomDictionary ;;
    if negb (includes dict word) then
      let dict := dict ++ [word] in
      setProperty_CUSTOM_DICTIONARY dict ;;
      ret dict
    else ret dict.

Definition removeFromCustomDictionary (index : Z) : M (list jsstring) :=
  dict <- getCustomDictionary ;;
  if ((0 <=? index) && (index <? Z.of_nat (length dict)))%Z then
    let dict := delete (Z.to_nat index) dict in
    setProperty_CUSTOM_DICTIONARY dict ;;
    ret dict
  else ret dict.

(** *** Similar words *)

(** [word[0]] is [head word]: [undefined] on the empty string. *)
Definition similarWords (word1 word2 : jsstring) : bool :=
  let word1 := toLowerCase word1 in
  let word2 := toLowerCase word2 in
  bool_decide (head word1 = head word2)
  && (Z.abs (Z.of_nat (length word1) - Z.of_nat (length word2)) <=? 2)%Z.

(** *** Writing back to the cell *)

(** The sheet is returned as its position among the sheets. *)
Fixpoint getSheetById_from (i : nat) (l : list Sheet) (id : jsstring)
    : option nat :=
  match l with
  | [] => None
  | s :: l' =>
      if bool_decide (N_toString (getSheetId s) = id) then Some i
      else getSheetById_from (S i) l' id
  end.

Definition getSheetById (id : jsstring) : M (option nat) :=
  l <- getSheets ;;
  ret (getSheetById_from 0 l id).

(** [!rangeA1 || !sheetId] holds when either entry is absent from the
    cache ([null]) or is the empty string. *)
Definition updateCellWithCorrectedText (correctedText : jsstring) : M unit :=
  c <- getCache ;;
  match ACTIVE_RANGE_A1 c, ACTIVE_SHEET_ID c with
  | Some (a :: rangeA1), Some (d :: sheetId) =>
      sheet <- getSheetById (d :: sheetId) ;;
      match sheet with
      | Some i => Range_setValue i (a :: rangeA1) correctedText
      | None => ret tt
      end
  | _, _ => ret tt
  end.

Definition updateCellWithImprovedGrammar (improvedText : jsstring) : M unit :=
  c <- getCache ;;
  match ACTIVE_RANGE_A1 c, ACTIVE_SHEET_ID c with
  | Some (a :: rangeA1), Some (d :: sheetId) =>
      sheet <- getSheetById (d :: sheetId) ;;
      match sheet with
      | Some i => Range_setValue i (a :: rangeA1) improvedText
      | None => ret tt
      end
  | _, _ => ret tt
  end.

(** *** The call to the language model *)

(** [v.name], for the names the script reads ([choices], [message],
    [content], [typos], [replacements], [word]), none of which a
    prototype defines: reading from [undefined] or [null] throws,
    an object gives its own member, every other value [undefined]. *)
Definition Get (v : value) (name : jsstring) : M value :=
  match v with
  | None | Some JNull => throw (HostError TypeError)
  | Some (JObject members) => ret (own_property name members)
  | Some _ => ret None
  end.

(** [v[0]] *)
Definition Get0 (v : value) : M value :=
  match v with
  | None | Some JNull => throw (HostError TypeError)
  | Some (JArray elements) => ret (head elements)
  | Some (JString s) => ret ((fun c => JString [c]) <$> head s)
  | Some (JObject members) => ret (own_property (js "0") members)
  | Some _ => ret None
  end.

(** [JSON.parse(text)] *)
Definition JSON_parse (text : jsstring) : M json :=
  match JSON.parse text with
  | Some v => ret v
  | None => throw (HostError SyntaxError)
  end.

(** The [options] of the request, with its [url]. *)
Definition requestOptions (apiKey : jsstring) (messages : list Message)
    : HttpRequest :=
  {| url := js "https://api.openai.com/v1/chat/completions";
     method := js "post";
     contentType := js "application/json";
     payload_model := js "gpt-4";
     payload_messages := messages;
     payload_temperature := Number false 3 (-1);
     payload_max_tokens := 1000;
     headers_Authorization := js "Bearer " ++ apiKey;
     muteHttpExceptions := true |}.

Definition callOpenAI (apiKey : jsstring) (messages : list Message) : M value :=
  let options := requestOptions apiKey messages in
  match UrlFetchApp_fetch options with
  | None => throw (HostError FetchException)
  | Some response =>
      let responseCode := getResponseCode response in
      let responseBody := getContentText response in
      if negb (responseCode =? 200) then
        throw (Error (js "API Error " ++ N_toString responseCode ++ js ": "
                      ++ responseBody))
      else
        parsedResponse <- JSON_parse responseBody ;;
        choices <- Get (Some parsedResponse) (js "choices") ;;
        choice <- Get0 choices ;;
        message <- Get choice (js "message") ;;
        Get message (js "content")
  end.

(** *** Typos *)

(** [[...v]] *)
Definition spread (v : value) : M (list json) :=
  match v with
  | Some (JArray elements) => ret elements
  | Some (JString s) => ret (JString <$> code_points s)
  | _ => throw (HostError TypeError)
  end.

(** [similarWords(v, dictWord)] for a value [v]: [v.toLowerCase()] throws
    unless [v] is a string. *)
Definition similarWords_value (v : value) (dictWord : jsstring) : M bool :=
  match v with
  | Some (JString word) => ret (similarWords word dictWord)
  | _ => throw (HostError TypeError)
  end.

(** The [customDict.forEach] of [showTypoSuggestions]. *)
Fixpoint addSimilarWords (typo : json) (customDict : list jsstring)
    (allReplacements : list json) : M (list json) :=
  match customDict with
  | [] => ret allReplacements
  | dictWord :: customDict' =>
      word <- Get (Some typo) (js "word") ;;
      similar <- similarWords_value word dictWord ;;
      if similar && negb (includes_string allReplacements dictWord) then
        addSimilarWords typo customDict' (allReplacements ++ [JString dictWord])
      else addSimilarWords typo customDict' allReplacements
  end.

(** A value is put into the markup as a string. *)
Definition interpolate (v : value) : M unit :=
  match v with
  | Some x => if toString_throws x then throw (HostError TypeError) else ret tt
  | None => ret tt
  end.

Fixpoint interpolate_all (l : list json) : M unit :=
  match l with
  | [] => ret tt
  | x :: l' => interpolate (Some x) ;; interpolate_all l'
  end.

(** The body of the [typos.map] callback: the markup of one typo, kept
    as the values it is made from. *)
Definition renderTypo (customDict : list jsstring) (typo : json) (index : nat)
    : M TypoEntry :=
  replacements <- Get (Some typo) (js "replacements") ;;
  allReplacements <- spread replacements ;;
  allReplacements <- addSimilarWords typo customDict allReplacements ;;
  word <- Get (Some typo) (js "word") ;;
  interpolate word ;;
  interpolate_all allReplacements ;;
  ret {| entry_index := index; entry_word := word;
         entry_replacements := allReplacements |}.

Fixpoint renderTypos (customDict : list jsstring) (typos : list json)
    (index : nat) : M (list TypoEntry) :=
  match typos with
  | [] => ret []
  | typo :: typos' =>
      entry <- renderTypo customDict typo index ;;
      entries <- renderTypos customDict typos' (S index) ;;
      ret (entry :: entries)
  end.

Definition showTypoSuggestions (originalText : jsstring) (typos : value)
    (customDict : list jsstring) (range : Range) : M unit :=
  entries <- match typos with
             | Some (JArray elements) => renderTypos customDict elements 0
             | _ => throw (HostError TypeError)   (* typos.map is not a function *)
             end ;;
  display (ModalDialog (FixTypos originalText entries)) ;;
  put_ACTIVE_RANGE_A1 (getA1Notation range) ;;
  put_ACTIVE_SHEET_ID (N_toString (getSheet_getSheetId range)).

(** [[\s\S]], which every character matches. *)
Definition any_character : RegExp.regex :=
  RegExp.Class [RegExp.ClassSpace; RegExp.ClassNonSpace].

(** The two patterns [findTypos] searches the reply for, and the pattern
    of the fence markers it deletes:
    [/```json\s*([\s\S]*?)\s*```/], [/{[\s\S]*}/] and [/```json|```/g]. *)
Definition fencedBlock : RegExp.regex :=
  RegExp.Seq (RegExp.lit (js "```json"))
    (RegExp.Seq (RegExp.Star true (RegExp.Esc RegExp.ClassSpace))
       (RegExp.Seq (RegExp.Group (RegExp.Star false any_character))
          (RegExp.Seq (RegExp.Star true (RegExp.Esc RegExp.ClassSpace))
             (RegExp.lit (js "```"))))).

Definition braces : RegExp.regex :=
  RegExp.Seq (RegExp.Chr (ch "{"))
    (RegExp.Seq (RegExp.Star true any_character) (RegExp.Chr (ch "}"))).

Definition fenceMarkers : RegExp.regex :=
  RegExp.Alt (RegExp.lit (js "```json")) (RegExp.lit (js "```")).

(** The text [findTypos] hands to [JSON.parse]. *)
Definition jsonText (response : jsstring) : jsstring :=
  let jsonMatch :=
    match RegExp.String_match response fencedBlock with
    | Some m => Some m
    | None => RegExp.String_match response braces
    end in
  match jsonMatch with
  | Some m => trim (RegExp.String_replace m fenceMarkers [])
  | None => response
  end.

(** The inner [try] of [findTypos]: the reply is read as JSON.  A reply
    that is not a string has no [match] method. *)
Definition parseResponse (response : value) : M json :=
  try_catch
    (match response with
     | Some (JString text) => JSON_parse (jsonText text)
     | _ => throw (HostError TypeError)
     end)
    (fun e => throw (Error (js "Failed to parse OpenAI response"))).

(** [typos.length === 0], for a truthy [typos]. *)
Definition length_is_zero (typos : value) : bool :=
  match typos with
  | Some (JArray elements) => bool_decide (elements = [])
  | Some (JString s) => bool_decide (s = [])
  | Some (JObject members) =>
      match own_property (js "length") members with
      | Some (JNumber n) => is_zero n
      | _ => false
      end
  | _ => false
  end.

(** [!result || !result.typos || result.typos.length === 0] *)
Definition noTypos (result : json) : M bool :=
  if negb (truthy (Some result)) then ret true
  else
    typos <- Get (Some result) (js "typos") ;;
    if negb (truthy typos) then ret true
    else ret (length_is_zero typos).

Definition english_typo_prompt : jsstring :=
  js "Identify words with potential spelling mistakes in the following English text. For each word, provide possible corrections:".

Definition spanish_typo_prompt : jsstring :=
  js "Identifica palabras con posibles errores ortogr" ++ [225]
  ++ js "ficos en el siguiente texto en espa" ++ [241]
  ++ js "ol. Para cada palabra, proporciona posibles correcciones:".

Definition typo_messages (language text : jsstring) : list Message :=
  let languagePrompt :=
    if bool_decide (language = js "spanish") then spanish_typo_prompt
    else english_typo_prompt in
  [ {| role := js "system";
       content := js "You are a spelling assistant. " ++ languagePrompt
                  ++ jq " Return your response as a JSON object with the structure: {'typos':[{'word':'misspelled', 'replacements':['correct1', 'correct2']}]}" |};
    {| role := js "user"; content := text |} ].

(** [getProperty('GRAMMAR_CHECKER_LANGUAGE') || 'english'] *)
Definition language_or_english (p : UserProperties) : jsstring :=
  match GRAMMAR_CHECKER_LANGUAGE p with
  | Some (c :: l) => c :: l
  | _ => js "english"
  end.

Definition error_alert (e : exn) : M unit :=
  match e with
  | Error message => alert (js "Error: " ++ message)
  | HostError h => display (AlertHostError h)
  end.

Definition findTypos (text : jsstring) (range : Range) : M unit :=
  p <- getProperties ;;
  let language := language_or_english p in
  let apiKey := OPENAI_API_KEY p in
  match apiKey with
  | Some (c :: k) =>
      customDict <- getCustomDictionary ;;
      try_catch
        (response <- callOpenAI (c :: k) (typo_messages language text) ;;
         if negb (truthy response) then
           throw (Error (js "Failed to get response from OpenAI"))
         else
           result <- parseResponse response ;;
           none <- noTypos result ;;
           if none then alert (js "No typos found in the selected text.")
           else
             typos <- Get (Some result) (js "typos") ;;
             showTypoSuggestions text typos customDict range)
        error_alert
  | _ =>
      alert (js "Please set your OpenAI API key first.") ;;
      showApiKeyDialog
  end.

Definition showTypoFixDialog : M unit :=
  match getActiveRange with
  | None => alert (js "Please select a range first.")
  | Some range =>
      text <- Range_getValue range ;;
      match text with
      | [] => alert (js "Selected cell is empty.")
      | _ :: _ => findTypos text range
      end
  end.

(** *** Grammar *)

Definition showGrammarComparison (originalText improvedText : jsstring)
    (range : Range) : M unit :=
  display (ModalDialog (ImproveGrammar originalText improvedText)) ;;
  put_ACTIVE_RANGE_A1 (getA1Notation range) ;;
  put_ACTIVE_SHEET_ID (N_toString (getSheet_getSheetId range)).

Definition english_grammar_prompt : jsstring :=
  js "Improve the grammar and clarity of this English text:".

Definition spanish_grammar_prompt : jsstring :=
  js "Mejora la gram" ++ [225] ++ js "tica y claridad de este texto en espa"
  ++ [241] ++ js "ol:".

Definition grammar_messages (language text : jsstring) : list Message :=
  let languagePrompt :=
    if bool_decide (language = js "spanish") then spanish_grammar_prompt
    else english_grammar_prompt in
  [ {| role := js "system";
       content := js "You are a grammar assistant. " ++ languagePrompt
                  ++ js " Return only the improved text without any additional explanation." |};
    {| role := js "user"; content := text |} ].

Definition improveGrammar (text : jsstring) (range : Range) : M unit :=
  p <- getProperties ;;
  let language := language_or_english p in
  let apiKey := OPENAI_API_KEY p in
  match apiKey with
  | Some (c :: k) =>
      try_catch
        (response <- callOpenAI (c :: k) (grammar_messages language text) ;;
         if negb (truthy response) then
           throw (Error (js "Failed to get response from OpenAI"))
         else
           match response with
           | Some (JString s) =>
               let improvedText := trim s in
               showGrammarComparison text improvedText range
           | _ => throw (HostError TypeError)   (* response.trim is not a function *)
           end)
        error_alert
  | _ =>
      alert (js "Please set your OpenAI API key first.") ;;
      showApiKeyDialog
  end.

Definition showGrammarImproveDialog : M unit :=
  match getActiveRange with
  | None => alert (js "Please select a range first.")
  | Some range =>
      text <- Range_getValue range ;;
      match text with
      | [] => alert (js "Selected cell is empty.")
      | _ :: _ => improveGrammar text range
      end
  end.

End Script.

(** ** The script of the 'Fix Typos' dialog

    The dialog runs in the user's browser.  It keeps the working copy of
    the text in [correctedText] and reaches the server-side functions
    through [google.script.run]; the model runs such a call at once and,
    like the dialog, ignores how it ends. *)

Record TypoDialogState : Type := {
  correctedText : jsstring;
  hiddenTypos : list nat     (* the typos whose markup has been hidden *)
}.

(** The state the dialog opens in: [let correctedText = originalText]. *)
Definition openTypoDialog (originalText : jsstring) : TypoDialogState :=
  {| correctedText := originalText; hiddenTypos := [] |}.

(** [replaceTypo(index, original, replacement)].  The result is [None]
    where [new RegExp(original, 'g')] is outside the patterns modelled. *)
Definition replaceTypo (index : nat) (original replacement : jsstring)
    (d : TypoDialogState) (w : World) : option (TypoDialogState * World) :=
  match RegExp.compile original with
  | Some pattern =>
      let correctedText :=
        RegExp.String_replace (correctedText d) pattern replacement in
      Some ({| correctedText := correctedText;
               hiddenTypos := index :: hiddenTypos d |},
            snd (updateCellWithCorrectedText correctedText w))
  | None => None
  end.

(** [keepOriginal(index)] *)
Definition keepOriginal (index : nat) (d : TypoDialogState) : TypoDialogState :=
  {| correctedText := correctedText d; hiddenTypos := index :: hiddenTypos d |}.


(** ** Reading a world *)

(** The custom dictionary a world holds: what [getCustomDictionary]
    returns in it. *)
Definition dictionary (w : World) : list jsstring :=
  match CUSTOM_DICTIONARY (props w) with
  | Some dict => dict
  | None => []
  end.

(** The world in which [dict] has been saved as the custom dictionary. *)
Definition with_dictionary (dict : list jsstring) (w : World) : World :=
  {| props := {| OPENAI_API_KEY := OPENAI_API_KEY (props w);
                 GRAMMAR_CHECKER_LANGUAGE := GRAMMAR_CHECKER_LANGUAGE (props w);
                 CUSTOM_DICTIONARY := Some dict |};
     cache := cache w; sheets := sheets w; ui := ui w |}.

(** The world after the user has been shown [events]. *)
Definition with_shown (events : list ui_event) (w : World) : World :=
  {| props := props w; cache := cache w; sheets := sheets w;
     ui := ui w ++ events |}.

(** The world after [range] has been remembered as the pending target. *)
Definition with_target (range : Range) (w : World) : World :=
  {| props := props w;
     cache := {| ACTIVE_RANGE_A1 := Some (getA1Notation range);
                 ACTIVE_SHEET_ID := Some (N_toString (getSheet_getSheetId range)) |};
     sheets := sheets w; ui := ui w |}.

(** The typos of all the 'Fix Typos' dialogs shown. *)
Definition shown_typos (w : World) : list TypoEntry :=
  flat_map (fun e => match e with
                     | ModalDialog (FixTypos _ entries) => entries
                     | _ => []
                     end) (ui w).

(** Cell Writer, as specified: resolve the sheet by its identifier and the
    range by its address and overwrite the value; do nothing when the
    target is not remembered or the sheet is not found. *)
Definition writeBack (text : jsstring) (w : World) : World :=
  match ACTIVE_RANGE_A1 (cache w), ACTIVE_SHEET_ID (cache w) with
  | Some (a :: rangeA1), Some (d :: sheetId) =>
      match list_find (fun s => N_toString (getSheetId s) = d :: sheetId) (sheets w) with
      | Some (i, s) =>
          {| props := props w; cache := cache w;
             sheets := <[i := {| getSheetId := getSheetId s;
                                 rangeValues := <[a :: rangeA1 := text]> (rangeValues s) |}]>
                         (sheets w);
             ui := ui w |}
      | None => w
      end
  | _, _ => w
  end.

(** ** The suggestions as specified *)






(** ** Substitution and extraction as specified *)

(** [strip_prefix p s] is what follows [p] in [s] when [s] begins with
    [p]. *)
Fixpoint strip_prefix (p s : jsstring) : option jsstring :=
  match p, s with
  | [], _ => Some s
  | c :: p', x :: s' => if c =? x then strip_prefix p' s' else None
  | _ :: _, [] => None
  end.

(** Literal global substitution: going through [s] from the left, every
    occurrence of [w] found is replaced by [r] and the scan continues
    behind it; the empty word occurs before every character and at the
    end.  [skip] counts the characters still to pass of the occurrence
    found last. *)
Fixpoint replaceAll_from (w r s : jsstring) (skip : nat) : jsstring :=
  match s with
  | [] =>
      match w with
      | [] => r
      | _ :: _ => []
      end
  | c :: s' =>
      match skip with
      | S skip' => replaceAll_from w r s' skip'
      | O =>
          match strip_prefix w s with
          | Some _ =>
              r ++ match length w with
                   | O => c :: replaceAll_from w r s' 0
                   | S l => replaceAll_from w r s' l
                   end
          | None => c :: replaceAll_from w r s' 0
          end
      end
  end.

Definition replaceAll (s w r : jsstring) : jsstring := replaceAll_from w r s 0.

(** [split_at_first p s] cuts [s] at the first occurrence of [p]: the text
    before the occurrence and the text after it. *)
Fixpoint split_at_first (p s : jsstring) : option (jsstring * jsstring) :=
  match strip_prefix p s with
  | Some rest => Some ([], rest)
  | None =>
      match s with
      | [] => None
      | c :: s' =>
          match split_at_first p s' with
          | Some (pre, post) => Some (c :: pre, post)
          | None => None
          end
      end
  end.

(** [split_at_last c s] cuts [s] at the last occurrence of the character
    [c]. *)
Fixpoint split_at_last (c : N) (s : jsstring) : option (jsstring * jsstring) :=
  match s with
  | [] => None
  | x :: s' =>
      match split_at_last c s' with
      | Some (pre, post) => Some (x :: pre, post)
      | None => if c =? x then Some ([], s') else None
      end
  end.

(** The marker that opens a fenced block of JSON. *)
Definition fence_json : jsstring := js "```json".

(** The marker that closes a fenced block. *)
Definition fence : jsstring := js "```".

(** [s] with every fence marker deleted, going from the left and taking
    [```json] where both markers begin. *)
Fixpoint delete_markers_from (s : jsstring) (skip : nat) : jsstring :=
  match s with
  | [] => []
  | c :: s' =>
      match skip with
      | S skip' => delete_markers_from s' skip'
      | O =>
          match strip_prefix fence_json s, strip_prefix fence s with
          | Some _, _ => delete_markers_from s' 6
          | None, Some _ => delete_markers_from s' 2
          | None, None => c :: delete_markers_from s' 0
          end
      end
  end.

Definition delete_markers (s : jsstring) : jsstring := delete_markers_from s 0.

(** Stage 1: the reply has a [```json] marker with a [```] marker behind
    it.  The text is what stands between the first [```json] and the next
    [```], trimmed. *)
Definition fenced_text (response : jsstring) : option jsstring :=
  match split_at_first fence_json response with
  | Some (_, rest) =>
      match split_at_first fence rest with
      | Some (body, _) => Some (trim body)
      | None => None
      end
  | None => None
  end.

(** Stage 2: the reply has a [{] with a [}] behind it.  The text reaches
    from the first [{] to the last [}] of the reply; fence markers inside
    it are deleted. *)
Definition braced_text (response : jsstring) : option jsstring :=
  match split_at_first [ch "{"] response with
  | Some (_, rest) =>
      match split_at_last (ch "}") rest with
      | Some (body, _) =>
          Some (trim (delete_markers (ch "{" :: body ++ [ch "}"])))
      | None => None
      end
  | None => None
  end.

(** The one text that is parsed: of stage 1 if it applies, else of stage 2
    if it applies, else the whole reply. *)
Definition selected_text (response : jsstring) : jsstring :=
  match fenced_text response with
  | Some text => text
  | None =>
      match braced_text response with
      | Some text => text
      | None => response
      end
  end.

(** *** The three stages with brace matching and fallback

    The reading in which stage 2 finds the first [{...}] by matching
    braces, and the result is the parse of the first stage that yields a
    JSON object. *)

(** The text up to the brace that closes [depth] open ones. *)
Fixpoint up_to_closing_brace (s : jsstring) (depth : nat) : option jsstring :=
  match s with
  | [] => None
  | c :: s' =>
      if c =? ch "{" then cons c <$> up_to_closing_brace s' (S depth)
      else if c =? ch "}" then
        match depth with
        | O => Some [c]
        | S depth' => cons c <$> up_to_closing_brace s' depth'
        end
      else cons c <$> up_to_closing_brace s' depth
  end.

(** The first top-level [{...}] found by brace matching. *)
Definition brace_matched_text (response : jsstring) : option jsstring :=
  match split_at_first [ch "{"] response with
  | Some (_, rest) => cons (ch "{") <$> up_to_closing_brace rest 0
  | None => None
  end.

Definition parse_object (text : option jsstring) : option JSON.json :=
  match text with
  | Some t =>
      match JSON.parse t with
      | Some (JSON.JObject members) => Some (JSON.JObject members)
      | _ => None
      end
  | None => None
  end.

Definition first_valid_stage (response : jsstring) : option JSON.json :=
  match parse_object (fenced_text response) with
  | Some v => Some v
  | None =>
      match parse_object (brace_matched_text response) with
      | Some v => Some v
      | None => parse_object (Some response)
      end
  end.

(** ** The order in which a star of single characters tries its matches *)

(** A greedy star of a one-character pattern, in the order it tries the
    continuation [k]: behind the longest run of characters that pass the
    test [p] first, then behind shorter and shorter runs. *)
Fixpoint longest_first (p : N -> bool) (k : jsstring -> option jsstring)
    (s : jsstring) : option jsstring :=
  match s with
  | c :: s' =>
      if p c then RegExp.orelse (longest_first p k s') (k s) else k s
  | [] => k []
  end.

(** A lazy star of a one-character pattern: the continuation is tried at
    once, then behind longer and longer runs. *)
Fixpoint shortest_first (p : N -> bool) (k : jsstring -> option jsstring)
    (s : jsstring) : option jsstring :=
  RegExp.orelse (k s)
    match s with
    | c :: s' => if p c then shortest_first p k s' else None
    | [] => None
    end.

(** What follows the first occurrence of [p] in [s]. *)
Definition after_first (p s : jsstring) : option jsstring :=
  snd <$> split_at_first p s.

(** What follows the last occurrence of the character [c] in [s]. *)
Definition after_last (c : N) (s : jsstring) : option jsstring :=
  snd <$> split_at_last c s.

(** ** Sample data *)

(** [toLowerCase] on strings of Basic Latin and Latin-1 characters. *)
Definition toLowerCase_latin1 (s : jsstring) : jsstring :=
  map (fun c =>
         if ((65 <=? c) && (c <=? 90))
            || ((192 <=? c) && (c <=? 222) && negb (c =? 215))
         then c + 32 else c) s.

(** An endpoint that answers every request with the same response. *)
Definition answering (code : N) (body : jsstring)
    : HttpRequest -> option HttpResponse :=
  fun _ => Some {| getResponseCode := code; getContentText := body |}.

(** A user who cancels every prompt. *)
Definition cancelling : jsstring -> jsstring -> option jsstring :=
  fun _ _ => None.

(** A spreadsheet with one empty sheet, an API key and a dictionary. *)
Definition sample_world (dict : list jsstring) : World :=
  {| props := {| OPENAI_API_KEY := Some (js "sk-sample");
                 GRAMMAR_CHECKER_LANGUAGE := None;
                 CUSTOM_DICTIONARY := Some dict |};
     cache := {| ACTIVE_RANGE_A1 := None; ACTIVE_SHEET_ID := None |};
     sheets := [ {| getSheetId := 0; rangeValues := ∅ |} ];
     ui := [] |}.

Definition sample_range : Range :=
  {| getA1Notation := js "A1"; getSheet_getSheetId := 0 |}.

(** A world that holds a dictionary and nothing else. *)
Definition world_of_dictionary (dict : list jsstring) : World :=
  {| props := {| OPENAI_API_KEY := None; GRAMMAR_CHECKER_LANGUAGE := None;
                 CUSTOM_DICTIONARY := Some dict |};
     cache := {| ACTIVE_RANGE_A1 := None; ACTIVE_SHEET_ID := None |};
     sheets := []; ui := [] |}.

(** A world with one empty sheet, of identifier 0, and a pending target. *)
Definition world_of_target (rangeA1 sheetId : option jsstring) : World :=
  {| props := {| OPENAI_API_KEY := None; GRAMMAR_CHECKER_LANGUAGE := None;
                 CUSTOM_DICTIONARY := None |};
     cache := {| ACTIVE_RANGE_A1 := rangeA1; ACTIVE_SHEET_ID := sheetId |};
     sheets := [ {| getSheetId := 0; rangeValues := ∅ |} ];
     ui := [] |}.

(** The body of a completion whose message text is [{"typos":[]}]. *)
Definition no_typos_reply : jsstring := jq "{'typos':[]}".

Definition no_typos_body : jsstring :=
  jq "{'choices':[{'message':{'role':'assistant','content':'{\'typos\':[]}'}}]}".

(** The body of a completion that reports the typo [teh] without any
    replacement. *)
Definition bare_typo_body : jsstring :=
  jq "{'choices':[{'message':{'role':'assistant','content':'{\'typos\':[{\'word\':\'teh\',\'replacements\':[]}]}'}}]}".


(** A reply in a fenced block: one typo, [teh], with the replacement
    [the]. *)
Definition fenced_reply : jsstring :=
  js "```json" ++ [10]
  ++ jq "{'typos':[{'word':'teh','replacements':['the']}]}" ++ [10]
  ++ js "```".

(** A reply whose fenced block is not JSON, with an object behind it. *)
Definition broken_fence_reply : jsstring :=
  js "```json" ++ [10] ++ js "none" ++ [10] ++ js "``` " ++ jq "{'typos':[]}".

(** A reply with a second pair of braces behind the object. *)
Definition two_objects_reply : jsstring :=
  jq "{'typos':[]} (an empty list {} means no typos)".

(** ** Opening the document and the language preference *)

Section Preferences.

(** [String.prototype.toUpperCase] *)
Variable toUpperCase : jsstring -> jsstring.

(** What the user answers to [ui.prompt(title, prompt, OK_CANCEL)]. *)
Variable ui_prompt : jsstring -> jsstring -> option jsstring.

Definition onOpenDocument : M unit :=
  p <- getProperties ;;
  let apiKey := OPENAI_API_KEY p in
  match apiKey with
  | Some (_ :: _) => ret tt
  | _ => showApiKeyDialog ui_prompt
  end.

(** [setProperty('GRAMMAR_CHECKER_LANGUAGE', language)] *)
Definition setProperty_GRAMMAR_CHECKER_LANGUAGE (language : jsstring) : M unit :=
  p <- getProperties ;;
  setProperties {| OPENAI_API_KEY := OPENAI_API_KEY p;
                   GRAMMAR_CHECKER_LANGUAGE := Some language;
                   CUSTOM_DICTIONARY := CUSTOM_DICTIONARY p |}.

(** [language.charAt(0)] is the first character, or the empty string;
    [language.slice(1)] is what follows it. *)
Definition setLanguagePreference (language : jsstring) : M unit :=
  setProperty_GRAMMAR_CHECKER_LANGUAGE language ;;
  alert (js "Language set to " ++ toUpperCase (take 1 language) ++ drop 1 language).

End Preferences.

(** ** What the markup of a dialog passes on

    The dialogs are built as text: values are put into markup, into the
    source of [onclick] attributes and into [script] elements, and the
    browser reads the result.  The model covers the values that are read
    back as they were put in. *)





(** ** The script of the 'Improve Grammar' dialog *)


(** ** The buttons of the 'Fix Typos' dialog *)


(** ** The script of the 'Custom Dictionary' dialog

    [showDictionaryManager] renders the words of [getCustomDictionary()],
    each with a delete button that carries its position, and an input
    field for a new word.  The model keeps the words rendered and the
    content of the field; as for the 'Fix Typos' dialog, a call through
    [google.script.run] is run at once. *)









(** ** Triggers *)

(** An installable trigger of the user for the spreadsheet. *)
Inductive EventType : Type := ON_OPEN | ON_EDIT | ON_CHANGE | ON_FORM_SUBMIT | CLOCK.

Record Trigger : Type := {
  getUniqueId : jsstring;
  getHandlerFunction : jsstring;
  getEventType : EventType
}.

(** The buttons of [ui.alert(title, prompt, YES_NO)]; [CLOSE] when the
    dialog is dismissed. *)
Inductive Button : Type := YES | NO | CLOSE.

(** What [configTriggers] shows the user. *)
Inductive trigger_event : Type :=
| Ask (title prompt : jsstring)      (* ui.alert(title, prompt, YES_NO) *)
| Tell (prompt : jsstring).          (* ui.alert(prompt) *)

Section Triggers.

(** What the user answers to [ui.alert(title, prompt, YES_NO)]. *)
Variable ui_alert : jsstring -> jsstring -> Button.

(** The identifier the host gives to the trigger [create()] installs. *)
Variable newTriggerId : jsstring.

(** [ScriptApp.deleteTrigger(trigger)] *)
Definition deleteTrigger (trigger : Trigger) (installed : list Trigger)
    : list Trigger :=
  filter (fun t => getUniqueId t ≠ getUniqueId trigger) installed.

Definition isOnOpenDocument (t : Trigger) : bool :=
  bool_decide (getHandlerFunction t = js "onOpenDocument").

(** The second loop of [configTriggers], over the triggers read at the
    start. *)
Fixpoint deleteOnOpenDocument (triggers installed : list Trigger)
    : list Trigger :=
  match triggers with
  | [] => installed
  | t :: triggers' =>
      if isOnOpenDocument t then
        deleteOnOpenDocument triggers' (deleteTrigger t installed)
      else deleteOnOpenDocument triggers' installed
  end.

(** [configTriggers()], from the triggers installed to the triggers
    installed afterwards and what the user was shown.  A trigger created
    is listed behind those installed before. *)
Definition configTriggers (installed : list Trigger)
    : list Trigger * list trigger_event :=
  let triggers := installed in
  let triggerExists := existsb isOnOpenDocument triggers in
  let title := js "Configure Triggers" in
  let prompt :=
    if triggerExists
    then js "The onOpenDocument trigger is already set up. Would you like to remove it?"
    else js "Would you like to set up the onOpenDocument trigger to run when the spreadsheet opens?" in
  match ui_alert title prompt with
  | YES =>
      if triggerExists then
        (deleteOnOpenDocument triggers installed,
         [Ask title prompt; Tell (js "Trigger removed successfully!")])
      else
        (installed ++ [{| getUniqueId := newTriggerId;
                          getHandlerFunction := js "onOpenDocument";
                          getEventType := ON_OPEN |}],
         [Ask title prompt; Tell (js "Trigger created successfully!")])
  | _ => (installed, [Ask title prompt])
  end.

End Triggers.

(** ** Reading a world, continued *)

(** The world in which [key] has been saved as the API key. *)
Definition with_key (key : jsstring) (w : World) : World :=
  {| props := {| OPENAI_API_KEY := Some key;
                 GRAMMAR_CHECKER_LANGUAGE := GRAMMAR_CHECKER_LANGUAGE (props w);
                 CUSTOM_DICTIONARY := CUSTOM_DICTIONARY (props w) |};
     cache := cache w; sheets := sheets w; ui := ui w |}.

(** The world in which [language] has been saved as the language. *)
Definition with_language (language : jsstring) (w : World) : World :=
  {| props := {| OPENAI_API_KEY := OPENAI_API_KEY (props w);
                 GRAMMAR_CHECKER_LANGUAGE := Some language;
                 CUSTOM_DICTIONARY := CUSTOM_DICTIONARY (props w) |};
     cache := cache w; sheets := sheets w; ui := ui w |}.

(** An action that leaves the world as it found it, however it ends. *)
Definition silent {A} (m : M A) : Prop := forall w, snd (m w) = w.

(** The API key is missing: never set, or set to the empty string. *)
Definition key_missing (w : World) : Prop :=
  OPENAI_API_KEY (props w) = None \/ OPENAI_API_KEY (props w) = Some [].


(** The dictionary is as the script keeps it: no word twice, no empty
    word, no word with white space around it. *)
Definition well_kept (dict : list jsstring) : Prop :=
  NoDup dict /\ Forall (fun word => word ≠ [] /\ trim word = word) dict.


(** A parsed reply that reports no typo: it is not an object, or its
    [typos] is missing, null, false, zero, the empty string or the empty
    array, or an object whose [length] is zero. *)
Definition reports_nothing (result : JSON.json) : bool :=
  match result with
  | JSON.JObject members =>
      match Value.own_property (js "typos") members with
      | None | Some JSON.JNull => true
      | Some (JSON.JBool b) => negb b
      | Some (JSON.JNumber n) => Value.is_zero n
      | Some (JSON.JString s) => bool_decide (s = [])
      | Some (JSON.JArray elements) => bool_decide (elements = [])
      | Some (JSON.JObject typos) =>
          match Value.own_property (js "length") typos with
          | Some (JSON.JNumber n) => Value.is_zero n
          | _ => false
          end
      end
  | _ => true
  end.

(** An entry of [typos] whose replacements cannot be spread: it is not an
    object, or its [replacements] is neither an array nor a string. *)
Definition lacks_replacements (typo : JSON.json) : Prop :=
  match typo with
  | JSON.JObject members =>
      match Value.own_property (js "replacements") members with
      | Some (JSON.JArray _) | Some (JSON.JString _) => False
      | _ => True
      end
  | _ => True
  end.

(** The only exception an action raises is a TypeError. *)
Definition only_TypeError {A} (m : M A) : Prop :=
  forall w e, fst (m w) = Throw e -> e = HostError TypeError.

(** ** Sample data, continued *)

(** The body of a completion whose message text is [content]. *)
Definition completion_body (content : jsstring) : jsstring :=
  jq "{'choices':[{'message':{'role':'assistant','content':"
  ++ JSON.quote content ++ jq "}}]}".



(** An endpoint that cannot be reached. *)
Definition unreachable : HttpRequest -> option HttpResponse :=
  fun _ => None.

(** [toUpperCase] on strings of Basic Latin characters. *)
Definition toUpperCase_basic_latin (s : jsstring) : jsstring :=
  map (fun c => if (97 <=? c) && (c <=? 122) then c - 32 else c) s.

(** * Properties *)

Import JSON Value.

(** ** The custom dictionary *)

Lemma includes_true (l : list jsstring) (x : jsstring) :
  includes l x = true <-> x ∈ l.
Proof. unfold includes. apply bool_decide_eq_true. Qed.

Lemma includes_false (l : list jsstring) (x : jsstring) :
  includes l x = false <-> x ∉ l.
Proof. unfold includes. apply bool_decide_eq_false. Qed.

Lemma getCustomDictionary_run (w : World) :
  getCustomDictionary w = (Ok (dictionary w), w).
Proof. reflexivity. Qed.

Lemma addToCustomDictionary_new (word : jsstring) (w : World) :
  trim word ≠ [] -> trim word ∉ dictionary w ->
  addToCustomDictionary word w =
    (Ok (dictionary w ++ [trim word]),
     with_dictionary (dictionary w ++ [trim word]) w).
Proof.
  intros Hblank Hnew. unfold addToCustomDictionary.
  rewrite bool_decide_eq_false_2 by assumption.
  unfold bind. rewrite getCustomDictionary_run.
  apply includes_false in Hnew. rewrite Hnew. reflexivity.
Qed.

Lemma addToCustomDictionary_noop (word : jsstring) (w : World) :
  trim word = [] \/ trim word ∈ dictionary w ->
  addToCustomDictionary word w = (Ok (dictionary w), w).
Proof.
  intros H. unfold addToCustomDictionary.
  destruct (decide (trim word = [])) as [Hb | Hb].
  - rewrite bool_decide_eq_true_2 by assumption. reflexivity.
  - rewrite bool_decide_eq_false_2 by assumption.
    destruct H as [H | H]; [contradiction |].
    unfold bind. rewrite getCustomDictionary_run.
    apply includes_true in H. rewrite H. reflexivity.
Qed.

Lemma dictionary_with_dictionary (dict : list jsstring) (w : World) :
  dictionary (with_dictionary dict w) = dict.
Proof. reflexivity. Qed.

(** Claim C4, amended.  [addToCustomDictionary] works on the trimmed word
    [t]: when [t] is not empty and not in the dictionary [D], the call
    returns and saves [D ++ [t]], which has one entry more, keeps the
    entries of [D] at their positions and has [t] at the end; when [t] is
    empty or already in [D], the call returns [D] and saves nothing. *)
Theorem addToCustomDictionary_appends_trimmed (word : jsstring) (w : World) :
  let D := dictionary w in
  let t := trim word in
  (t ≠ [] -> t ∉ D ->
     addToCustomDictionary word w = (Ok (D ++ [t]), with_dictionary (D ++ [t]) w)
     /\ dictionary (with_dictionary (D ++ [t]) w) = D ++ [t]
     /\ length (D ++ [t]) = S (length D)
     /\ (forall i x, D !! i = Some x -> (D ++ [t]) !! i = Some x)
     /\ (D ++ [t]) !! length D = Some t)
  /\ (t = [] \/ t ∈ D -> addToCustomDictionary word w = (Ok D, w)).
Proof.
  intros D t. split.
  - intros Hblank Hnew. split; [| split; [| split; [| split]]].
    + apply addToCustomDictionary_new; assumption.
    + reflexivity.
    + rewrite length_app. simpl. lia.
    + intros i x Hi. apply lookup_app_l_Some. exact Hi.
    + rewrite lookup_app_r by lia. replace (length D - length D)%nat with 0%nat by lia. reflexivity.
  - apply addToCustomDictionary_noop.
Qed.

(** The theorem at [" dog "] and at [" cat "] for the dictionary
    [["cat"]]. *)
Lemma addToCustomDictionary_appends_trimmed_witness :
  addToCustomDictionary (js " dog ") (world_of_dictionary [js "cat"]) =
    (Ok [js "cat"; js "dog"], world_of_dictionary [js "cat"; js "dog"])
  /\ addToCustomDictionary (js " cat ") (world_of_dictionary [js "cat"]) =
    (Ok [js "cat"], world_of_dictionary [js "cat"]).
Proof.
  split.
  - apply (proj1 (addToCustomDictionary_appends_trimmed (js " dog ")
                    (world_of_dictionary [js "cat"]))).
    + vm_compute. discriminate.
    + vm_compute. intros H. apply list_elem_of_In in H. simpl in H.
      destruct H as [H | []]. discriminate H.
  - apply (proj2 (addToCustomDictionary_appends_trimmed (js " cat ")
                    (world_of_dictionary [js "cat"]))).
    right. vm_compute. apply list_elem_of_here.
Defined.

(** Claim C4 as stated fails for a word with white space around it: [" cat "]
    is not blank and is not an entry of [["cat"]], yet the dictionary stays
    as it is, with one entry, and [" cat "] is not appended. *)
Lemma addToCustomDictionary_untrimmed_counterexample :
  (trim (js " cat ") ≠ [])
  /\ (js " cat " ∉ [js "cat"])
  /\ addToCustomDictionary (js " cat ") (world_of_dictionary [js "cat"]) =
       (Ok [js "cat"], world_of_dictionary [js "cat"])
  /\ (length [js "cat"] ≠ S (length [js "cat"]))
  /\ ([js "cat"] ≠ [js "cat"] ++ [js " cat "]).
Proof.
  split; [vm_compute; discriminate |].
  split; [intros H; apply list_elem_of_In in H; simpl in H; destruct H as [H | []]; discriminate H |].
  split; [reflexivity |]. split; [simpl; lia | discriminate].
Qed.

Lemma removeFromCustomDictionary_run (index : Z) (w : World) :
  removeFromCustomDictionary index w =
    if ((0 <=? index) && (index <? Z.of_nat (length (dictionary w))))%Z
    then (Ok (delete (Z.to_nat index) (dictionary w)),
          with_dictionary (delete (Z.to_nat index) (dictionary w)) w)
    else (Ok (dictionary w), w).
Proof.
  unfold removeFromCustomDictionary, bind. rewrite getCustomDictionary_run.
  destruct ((0 <=? index) && (index <? Z.of_nat (length (dictionary w))))%Z;
    reflexivity.
Qed.

(** Claim C5.  For an index within the dictionary [D],
    [removeFromCustomDictionary] returns and saves [D] without the entry at
    that index: one entry less, the entries before the index where they
    were, the entries behind it moved up by one.  For any other index it
    returns [D] and saves nothing. *)
Theorem removeFromCustomDictionary_removes_entry (index : Z) (w : World) :
  let D := dictionary w in
  let D' := delete (Z.to_nat index) D in
  ((0 <= index < Z.of_nat (length D))%Z ->
     removeFromCustomDictionary index w = (Ok D', with_dictionary D' w)
     /\ dictionary (with_dictionary D' w) = D'
     /\ length D' = (length D - 1)%nat
     /\ (exists x, D !! Z.to_nat index = Some x
                 /\ D = take (Z.to_nat index) D ++ x :: drop (S (Z.to_nat index)) D
                 /\ D' = take (Z.to_nat index) D ++ drop (S (Z.to_nat index)) D)
     /\ (forall j, (j < Z.to_nat index)%nat -> D' !! j = D !! j)
     /\ (forall j, (Z.to_nat index <= j)%nat -> D' !! j = D !! S j))
  /\ (~ (0 <= index < Z.of_nat (length D))%Z ->
        removeFromCustomDictionary index w = (Ok D, w)).
Proof.
  intros D D'. split.
  - intros Hi. rewrite removeFromCustomDictionary_run.
    replace ((0 <=? index) && (index <? Z.of_nat (length (dictionary w))))%Z
      with true by (symmetry; apply andb_true_iff; split;
                    [apply Z.leb_le | apply Z.ltb_lt]; unfold D in Hi; lia).
    assert (Hlt : (Z.to_nat index < length D)%nat) by lia.
    destruct (lookup_lt_is_Some_2 D (Z.to_nat index) Hlt) as [x Hx].
    split; [reflexivity |]. split; [reflexivity |].
    split; [apply length_delete; eauto |].
    split.
    + exists x. split; [exact Hx |]. split.
      * symmetry. apply take_drop_middle. exact Hx.
      * apply delete_take_drop.
    + split; intros j Hj.
      * apply list_lookup_delete_lt. exact Hj.
      * apply list_lookup_delete_ge. exact Hj.
  - intros Hi. rewrite removeFromCustomDictionary_run.
    replace ((0 <=? index) && (index <? Z.of_nat (length (dictionary w))))%Z
      with false; [reflexivity |].
    symmetry. apply andb_false_iff.
    destruct (Z.leb_spec 0 index); [right | left; reflexivity].
    apply Z.ltb_ge. unfold D in Hi. lia.
Qed.

(** The theorem at the indices 1, 3 and -1 of a dictionary of three
    words. *)
Lemma removeFromCustomDictionary_removes_entry_witness :
  removeFromCustomDictionary 1 (world_of_dictionary [js "a"; js "b"; js "c"]) =
    (Ok [js "a"; js "c"], world_of_dictionary [js "a"; js "c"])
  /\ removeFromCustomDictionary 3 (world_of_dictionary [js "a"; js "b"; js "c"]) =
    (Ok [js "a"; js "b"; js "c"], world_of_dictionary [js "a"; js "b"; js "c"])
  /\ removeFromCustomDictionary (-1) (world_of_dictionary [js "a"; js "b"; js "c"]) =
    (Ok [js "a"; js "b"; js "c"], world_of_dictionary [js "a"; js "b"; js "c"]).
Proof.
  split; [| split].
  - apply (proj1 (removeFromCustomDictionary_removes_entry 1
                    (world_of_dictionary [js "a"; js "b"; js "c"]))).
    simpl. lia.
  - apply (proj2 (removeFromCustomDictionary_removes_entry 3
                    (world_of_dictionary [js "a"; js "b"; js "c"]))).
    simpl. lia.
  - apply (proj2 (removeFromCustomDictionary_removes_entry (-1)
                    (world_of_dictionary [js "a"; js "b"; js "c"]))).
    simpl. lia.
Defined.

(** Claim C6.  Adding the same word a second time returns a dictionary of
    the same length as the first time: the same dictionary, and the store
    is left as the first call left it. *)
Theorem addToCustomDictionary_idempotent (word : jsstring) (w : World) :
  exists D1 D2 w1 w2,
    addToCustomDictionary word w = (Ok D1, w1)
    /\ addToCustomDictionary word w1 = (Ok D2, w2)
    /\ length D2 = length D1
    /\ D2 = D1 /\ w2 = w1 /\ dictionary w1 = D1.
Proof.
  destruct (decide (trim word = [])) as [Hb | Hb].
  - exists (dictionary w), (dictionary w), w, w.
    rewrite (addToCustomDictionary_noop word w) by (left; exact Hb). auto 6.
  - destruct (decide (trim word ∈ dictionary w)) as [Hin | Hin].
    + exists (dictionary w), (dictionary w), w, w.
      rewrite (addToCustomDictionary_noop word w) by (right; exact Hin). auto 6.
    + set (D1 := dictionary w ++ [trim word]).
      exists D1, D1, (with_dictionary D1 w), (with_dictionary D1 w).
      rewrite (addToCustomDictionary_new word w) by assumption.
      rewrite addToCustomDictionary_noop.
      * rewrite dictionary_with_dictionary. auto 6.
      * right. rewrite dictionary_with_dictionary.
        apply elem_of_app. right. apply list_elem_of_here.
Qed.

(** ** The dictionary as it is stored

    The script stores the dictionary as [JSON.stringify(dict)] and reads it
    back with [JSON.parse]; on an array of strings the second undoes the
    first, which is why the properties of the model can hold the array. *)

Lemma hex_value_hex_digit (n : N) :
  n < 16 -> hex_value (hex_digit n) = Some n.
Proof.
  intros H. destruct n as [| p]; [reflexivity |].
  do 4 (destruct p as [p | p |]; try reflexivity); exfalso; lia.
Qed.

Lemma hex_digits_value (c : N) :
  c < 65536 ->
  16 * (16 * (16 * (16 * 0 + c / 4096 mod 16) + c / 256 mod 16) + c / 16 mod 16)
  + c mod 16 = c.
Proof.
  intros H.
  assert (E1 : c / 256 = c / 16 / 16) by (rewrite N.Div0.div_div; reflexivity).
  assert (E2 : c / 4096 = c / 16 / 16 / 16)
    by (rewrite !N.Div0.div_div; reflexivity).
  rewrite E1, E2.
  pose proof (N.div_mod c 16 ltac:(discriminate)) as H1.
  pose proof (N.div_mod (c / 16) 16 ltac:(discriminate)) as H2.
  pose proof (N.div_mod (c / 16 / 16) 16 ltac:(discriminate)) as H3.
  assert (H4 : c / 16 / 16 / 16 < 16).
  { rewrite <- E2. apply N.Div0.div_lt_upper_bound. exact H. }
  rewrite (N.mod_small _ 16 H4).
  set (a := c / 16) in *. set (b := a / 16) in *. set (d := b / 16) in *.
  set (x := c mod 16) in *. set (y := a mod 16) in *. set (z := b mod 16) in *.
  lia.
Qed.

Lemma lex_silent_step (m m' : lex_mode) (c : N) (t : jsstring) :
  lex_step m c = Some ([], m') -> lex m (c :: t) = lex m' t.
Proof.
  intros H. cbn [lex]. rewrite H. destruct (lex m' t); reflexivity.
Qed.

Lemma lex_cons (m m' : lex_mode) (c : N) (toks : list token) (t : jsstring) :
  lex_step m c = Some (toks, m') ->
  lex m (c :: t) =
    match lex m' t with
    | Some rest => Some (toks ++ rest)
    | None => None
    end.
Proof. intros H. cbn [lex]. rewrite H. reflexivity. Qed.

Lemma lex_unicode_escape (c : N) (acc t : jsstring) :
  c < 65536 ->
  lex (LString acc) (unicode_escape c ++ t) = lex (LString (c :: acc)) t.
Proof.
  intros H. unfold unicode_escape. cbn [app].
  rewrite (lex_silent_step (LString acc) (LEscape acc)) by reflexivity.
  rewrite (lex_silent_step (LEscape acc) (LUnicode acc 4 0)) by reflexivity.
  assert (Hmod : forall x, x mod 16 < 16)
    by (intros x; apply N.mod_upper_bound; discriminate).
  rewrite (lex_silent_step _ (LUnicode acc 3 (16 * 0 + c / 4096 mod 16)))
    by (cbn [lex_step]; rewrite hex_value_hex_digit by apply Hmod; reflexivity).
  rewrite (lex_silent_step _
             (LUnicode acc 2 (16 * (16 * 0 + c / 4096 mod 16) + c / 256 mod 16)))
    by (cbn [lex_step]; rewrite hex_value_hex_digit by apply Hmod; reflexivity).
  rewrite (lex_silent_step _
             (LUnicode acc 1
                (16 * (16 * (16 * 0 + c / 4096 mod 16) + c / 256 mod 16)
                 + c / 16 mod 16)))
    by (cbn [lex_step]; rewrite hex_value_hex_digit by apply Hmod; reflexivity).
  rewrite (lex_silent_step _ (LString (c :: acc))); [reflexivity |].
  cbn [lex_step]. rewrite hex_value_hex_digit by apply Hmod.
  rewrite hex_digits_value by exact H. reflexivity.
Qed.

Lemma lex_plain_char (c : N) (acc t : jsstring) :
  c ≠ dquote -> c ≠ ch "\" -> 32 <= c ->
  lex (LString acc) (c :: t) = lex (LString (c :: acc)) t.
Proof.
  intros Hq Hb Hc. apply lex_silent_step. cbn [lex_step].
  apply N.eqb_neq in Hq, Hb. rewrite Hq, Hb.
  replace (c <? 32) with false by (symmetry; apply N.ltb_ge; exact Hc).
  reflexivity.
Qed.

Lemma lex_quote_char (c : N) (acc t : jsstring) :
  lex (LString acc) (quote_char c ++ t) = lex (LString (c :: acc)) t.
Proof.
  assert (Hescape : forall e x,
            escape_value e = Some x -> (e =? ch "u") = false ->
            lex (LString acc) ([ch "\"; e] ++ t) = lex (LString (x :: acc)) t).
  { intros e x He Hu. cbn [app].
    rewrite (lex_silent_step (LString acc) (LEscape acc)) by reflexivity.
    apply lex_silent_step. cbn [lex_step]. rewrite Hu, He. reflexivity. }
  unfold quote_char.
  destruct (N.eqb_spec c 8) as [-> | H8]; [apply Hescape; reflexivity |].
  destruct (N.eqb_spec c 9) as [-> | H9]; [apply Hescape; reflexivity |].
  destruct (N.eqb_spec c 10) as [-> | H10]; [apply Hescape; reflexivity |].
  destruct (N.eqb_spec c 12) as [-> | H12]; [apply Hescape; reflexivity |].
  destruct (N.eqb_spec c 13) as [-> | H13]; [apply Hescape; reflexivity |].
  destruct (N.eqb_spec c dquote) as [-> | Hq]; [apply Hescape; reflexivity |].
  destruct (N.eqb_spec c (ch "\")) as [-> | Hb]; [apply Hescape; reflexivity |].
  destruct (N.ltb_spec c 32) as [Hc | Hc].
  - apply lex_unicode_escape. lia.
  - apply lex_plain_char; assumption.
Qed.

Lemma lex_quote_chars (s acc t : jsstring) :
  lex (LString acc) (quote_chars s ++ dquote :: t) =
    match lex LStart t with
    | Some rest => Some (TLiteral (JString (rev acc ++ s)) :: rest)
    | None => None
    end.
Proof.
  remember (length s) as n eqn:Hn. revert s acc Hn.
  induction n as [n IH] using lt_wf_ind. intros s acc Hn.
  destruct s as [| c s].
  - cbn [quote_chars app lex lex_step]. rewrite N.eqb_refl, app_nil_r.
    destruct (lex LStart t); reflexivity.
  - assert (Hsurrogate : forall x,
              isLeadingSurrogate x = true \/ isTrailingSurrogate x = true ->
              x ≠ dquote /\ x ≠ ch "\" /\ 32 <= x /\ x < 65536).
    { intros x Hx. unfold isLeadingSurrogate, isTrailingSurrogate in Hx.
      assert (55296 <= x <= 57343) as [H1 H2].
      { destruct Hx as [Hx | Hx]; apply andb_true_iff in Hx as [Ha Hb];
          apply N.leb_le in Ha, Hb; lia. }
      repeat split; try lia; intros ->; vm_compute in H1; apply H1; reflexivity. }
    assert (Hstep : forall acc',
              lex (LString (c :: acc')) (quote_chars s ++ dquote :: t) =
                match lex LStart t with
                | Some rest => Some (TLiteral (JString (rev acc' ++ c :: s)) :: rest)
                | None => None
                end).
    { intros acc'. rewrite (IH (length s)) by (subst n; simpl; lia || reflexivity).
      cbn [rev]. rewrite <- app_assoc. reflexivity. }
    cbn [quote_chars].
    destruct (isLeadingSurrogate c) eqn:Hlead.
    + destruct (Hsurrogate c (or_introl Hlead)) as (Hq & Hb & H32 & H16).
      destruct s as [| d s].
      * rewrite lex_unicode_escape by exact H16. apply (Hstep acc).
      * destruct (isTrailingSurrogate d) eqn:Htrail.
        -- destruct (Hsurrogate d (or_intror Htrail)) as (Hq' & Hb' & H32' & _).
           cbn [app]. rewrite lex_plain_char by assumption.
           rewrite lex_plain_char by assumption.
           rewrite (IH (length s)) by (subst n; simpl; lia || reflexivity).
           cbn [rev]. rewrite <- !app_assoc. reflexivity.
        -- rewrite <- app_assoc, lex_unicode_escape by exact H16. apply (Hstep acc).
    + destruct (isTrailingSurrogate c) eqn:Htrail.
      * destruct (Hsurrogate c (or_intror Htrail)) as (_ & _ & _ & H16).
        rewrite <- app_assoc, lex_unicode_escape by exact H16. apply (Hstep acc).
      * rewrite <- app_assoc, lex_quote_char. apply (Hstep acc).
Qed.

Lemma lex_quote (s t : jsstring) :
  lex LStart (quote s ++ t) =
    match lex LStart t with
    | Some rest => Some (TLiteral (JString s) :: rest)
    | None => None
    end.
Proof.
  unfold quote. cbn [app].
  rewrite (lex_silent_step LStart (LString [])) by reflexivity.
  rewrite <- app_assoc. apply lex_quote_chars.
Qed.

Lemma lex_join_quoted (l : list jsstring) :
  lex LStart (join_quoted l ++ [ch "]"]) = Some (string_tokens l ++ [TRBracket]).
Proof.
  induction l as [| s l IH]; [reflexivity |].
  destruct l as [| s' l].
  - cbn [join_quoted string_tokens]. rewrite lex_quote. reflexivity.
  - change (join_quoted (s :: s' :: l))
      with (quote s ++ ch "," :: join_quoted (s' :: l)).
    rewrite <- app_assoc, lex_quote.
    change ((ch "," :: join_quoted (s' :: l)) ++ [ch "]"])
      with (ch "," :: (join_quoted (s' :: l) ++ [ch "]"])).
    rewrite (lex_cons LStart LStart (ch ",") [TComma]) by reflexivity.
    rewrite IH. reflexivity.
Qed.

Lemma parse_more_strings (l : list jsstring) (elements : list json) :
  parse_tokens (SNext [FArray elements])
    (match l with
     | [] => []
     | _ :: _ => TComma :: string_tokens l
     end ++ [TRBracket])
  = Some (JArray (rev elements ++ (JString <$> l))).
Proof.
  revert elements. induction l as [| s l IH]; intros elements.
  - cbn. rewrite app_nil_r. reflexivity.
  - pose proof (IH (JString s :: elements)) as IH'.
    cbn [rev] in IH'. rewrite <- app_assoc in IH'.
    destruct l as [| s' l]; exact IH'.
Qed.

Lemma parse_string_tokens (s : jsstring) (l : list jsstring) (elements : list json) :
  parse_tokens (SFirst [FArray elements])
    (string_tokens (s :: l) ++ [TRBracket])
  = Some (JArray (rev elements ++ (JString <$> (s :: l)))).
Proof.
  pose proof (parse_more_strings l (JString s :: elements)) as H.
  cbn [rev] in H. rewrite <- app_assoc in H.
  destruct l as [| s' l]; exact H.
Qed.

(** [JSON.parse(JSON.stringify(l))] is [l] for an array of strings. *)
Lemma parse_stringify_strings (l : list jsstring) :
  JSON.parse (stringify_strings l) = Some (JArray (JString <$> l)).
Proof.
  unfold JSON.parse, stringify_strings.
  rewrite (lex_cons LStart LStart (ch "[") [TLBracket]) by reflexivity.
  rewrite lex_join_quoted. cbn [app parse_tokens parse_step value_step].
  destruct l as [| s l]; [reflexivity |].
  rewrite parse_string_tokens. reflexivity.
Qed.

(** ** Similar words *)

(** Claim C7.  [similarWords] is symmetric, whatever [toLowerCase] does. *)
Theorem similarWords_symmetric (toLowerCase : jsstring -> jsstring)
    (a b : jsstring) :
  similarWords toLowerCase a b = similarWords toLowerCase b a.
Proof.
  unfold similarWords. f_equal.
  - apply bool_decide_ext. split; intros H; symmetry; exact H.
  - f_equal. lia.
Qed.

(** ** Writing back to the cell *)

Lemma getSheetById_from_list_find (l : list Sheet) (id : jsstring) (i : nat) :
  getSheetById_from i l id =
    (fun p => (i + fst p)%nat) <$>
      list_find (fun s => N_toString (getSheetId s) = id) l.
Proof.
  revert i. induction l as [| s l IH]; intros i; simpl.
  - reflexivity.
  - unfold bool_decide. destruct (decide_rel _ _ _) as [H | H]; simpl.
    + f_equal. lia.
    + rewrite IH. destruct (list_find _ l) as [[j x] |]; simpl; [| reflexivity].
      f_equal. lia.
Qed.

Lemma updateCellWithImprovedGrammar_writeBack (text : jsstring) (w : World) :
  updateCellWithImprovedGrammar text w = (Ok tt, writeBack text w).
Proof.
  unfold updateCellWithImprovedGrammar, writeBack, bind, getCache. simpl.
  destruct w as [p [a1 id] l u]; simpl.
  destruct a1 as [[| a rangeA1] |]; try reflexivity;
  destruct id as [[| d sheetId] |]; try reflexivity.
  unfold getSheetById, bind, getSheets, ret. simpl.
  rewrite getSheetById_from_list_find.
  destruct (list_find _ l) as [[i s] |] eqn:Hfind; simpl; [| reflexivity].
  unfold Range_setValue, bind, getSheets, setSheets. simpl.
  apply list_find_Some in Hfind as (Hi & _ & _).
  do 2 f_equal. f_equal.
  apply list_eq. intros j. destruct (decide (i = j)) as [<- | Hne].
  - rewrite list_lookup_alter_eq, Hi. simpl.
    rewrite list_lookup_insert_eq by (eapply lookup_lt_Some; eauto). reflexivity.
  - rewrite list_lookup_alter_ne, list_lookup_insert_ne by assumption. reflexivity.
Qed.

(** Claim C10.  [updateCellWithCorrectedText] and
    [updateCellWithImprovedGrammar] are the same function of the text and
    the world: both write the text back as the Cell Writer is specified,
    and both leave the world as it is when a cache entry is absent or no
    sheet has the cached identifier. *)
Theorem updateCell_functions_equivalent (text : jsstring) (w : World) :
  updateCellWithCorrectedText text w = updateCellWithImprovedGrammar text w
  /\ updateCellWithImprovedGrammar text w = (Ok tt, writeBack text w)
  /\ (ACTIVE_RANGE_A1 (cache w) = None \/ ACTIVE_SHEET_ID (cache w) = None ->
      updateCellWithImprovedGrammar text w = (Ok tt, w))
  /\ (forall id, ACTIVE_SHEET_ID (cache w) = Some id ->
      (forall s, s ∈ sheets w -> N_toString (getSheetId s) ≠ id) ->
      updateCellWithImprovedGrammar text w = (Ok tt, w)).
Proof.
  split; [reflexivity |]. split; [apply updateCellWithImprovedGrammar_writeBack |].
  rewrite updateCellWithImprovedGrammar_writeBack. unfold writeBack. split.
  - intros [H | H]; rewrite H; [reflexivity |].
    destruct (ACTIVE_RANGE_A1 (cache w)) as [[| ? ?] |]; reflexivity.
  - intros id Hid Hnone. rewrite Hid.
    destruct (ACTIVE_RANGE_A1 (cache w)) as [[| a rangeA1] |]; try reflexivity.
    destruct id as [| d sheetId]; [reflexivity |].
    destruct (list_find _ (sheets w)) as [[i s] |] eqn:Hfind; [| reflexivity].
    apply list_find_Some in Hfind as (Hi & Hs & _).
    exfalso. apply (Hnone s); [| exact Hs].
    apply list_elem_of_lookup. eauto.
Qed.

(** The theorem without a cached address, and with the identifier of a
    sheet that does not exist. *)
Lemma updateCell_functions_equivalent_witness :
  updateCellWithImprovedGrammar (js "text") (world_of_target None (Some (js "0")))
    = (Ok tt, world_of_target None (Some (js "0")))
  /\ updateCellWithImprovedGrammar (js "text")
       (world_of_target (Some (js "A1")) (Some (js "5")))
    = (Ok tt, world_of_target (Some (js "A1")) (Some (js "5"))).
Proof.
  split.
  - apply (proj1 (proj2 (proj2 (updateCell_functions_equivalent (js "text")
             (world_of_target None (Some (js "0"))))))).
    left. reflexivity.
  - apply (proj2 (proj2 (proj2 (updateCell_functions_equivalent (js "text")
             (world_of_target (Some (js "A1")) (Some (js "5")))))) (js "5")).
    + reflexivity.
    + intros s Hs. apply list_elem_of_In in Hs. simpl in Hs.
      destruct Hs as [<- | []]. vm_compute. discriminate.
Defined.

(** ** Errors of the API *)

Lemma callOpenAI_world (fetch : HttpRequest -> option HttpResponse) (apiKey : jsstring)
    (messages : list Message) (w : World) :
  snd (callOpenAI fetch apiKey messages w) = w.
Proof.
  unfold callOpenAI.
  destruct (fetch _) as [response |]; [| reflexivity].
  destruct (negb _); [reflexivity |].
  unfold bind, JSON_parse.
  destruct (parse _) as [v |]; [| reflexivity]. simpl.
  destruct v as [| | | | | members]; try reflexivity; simpl.
  destruct (own_property _ members) as [v |]; [| reflexivity].
  assert (HGet : forall (v : value) name (f : value -> M value),
            (forall x, snd (f x w) = w) ->
            snd (match Get v name w with
                 | (Ok a, w') => f a w'
                 | (Throw e, w') => (Throw e, w')
                 end) = w).
  { intros [[| | | | | ms] |] name f Hf; simpl; auto. }
  assert (HGet0 : forall (v : value) (f : value -> M value),
            (forall x, snd (f x w) = w) ->
            snd (match Get0 v w with
                 | (Ok a, w') => f a w'
                 | (Throw e, w') => (Throw e, w')
                 end) = w).
  { intros [[| | | | | ms] |] f Hf; simpl; auto. }
  apply HGet0. intros x. apply HGet. intros y.
  destruct y as [[| | | | | ms] |]; reflexivity.
Qed.

Lemma callOpenAI_not_200 (fetch : HttpRequest -> option HttpResponse)
    (apiKey : jsstring) (messages : list Message) (response : HttpResponse)
    (w : World) :
  fetch (requestOptions apiKey messages) = Some response ->
  getResponseCode response ≠ 200 ->
  callOpenAI fetch apiKey messages w =
    (Throw (Error (js "API Error " ++ N_toString (getResponseCode response)
                   ++ js ": " ++ getContentText response)),
     w).
Proof.
  intros Hfetch Hcode. unfold callOpenAI. rewrite Hfetch.
  apply N.eqb_neq in Hcode. rewrite Hcode. reflexivity.
Qed.

Lemma Range_getValue_run (range : Range) (w : World) :
  exists text, Range_getValue range w = (Ok text, w).
Proof. unfold Range_getValue, bind, getSheets, ret. eauto. Qed.

Lemma Range_getValue_with_shown (range : Range) (events : list ui_event)
    (w : World) :
  fst (Range_getValue range (with_shown events w)) = fst (Range_getValue range w).
Proof. reflexivity. Qed.

(** Claim C9.  When the endpoint answers with a status other than 200,
    [callOpenAI] throws an error whose message carries the status and the
    body; the action, [findTypos] or [improveGrammar], reached from the
    menu through [showTypoFixDialog] or [showGrammarImproveDialog],
    catches it and shows one alert with that message; the value of every
    range, the cache and the properties stay as they were. *)
Theorem api_error_is_alerted_and_nothing_written
    (toLowerCase : jsstring -> jsstring)
    (fetch : HttpRequest -> option HttpResponse)
    (ui_prompt : jsstring -> jsstring -> option jsstring)
    (text : jsstring) (range : Range) (w : World)
    (c : N) (k : jsstring) (messages : list Message) (response : HttpResponse) :
  let message := js "API Error " ++ N_toString (getResponseCode response)
                 ++ js ": " ++ getContentText response in
  let alerted := with_shown [Alert (js "Error: " ++ message)] w in
  OPENAI_API_KEY (props w) = Some (c :: k) ->
  fetch (requestOptions (c :: k) messages) = Some response ->
  getResponseCode response ≠ 200 ->
  callOpenAI fetch (c :: k) messages w = (Throw (Error message), w)
  /\ (messages = typo_messages (language_or_english (props w)) text ->
      findTypos toLowerCase fetch ui_prompt text range w = (Ok tt, alerted)
      /\ (fst (Range_getValue range w) = Ok text -> text ≠ [] ->
          showTypoFixDialog toLowerCase fetch ui_prompt (Some range) w
          = (Ok tt, alerted)))
  /\ (messages = grammar_messages (language_or_english (props w)) text ->
      improveGrammar fetch ui_prompt text range w = (Ok tt, alerted)
      /\ (fst (Range_getValue range w) = Ok text -> text ≠ [] ->
          showGrammarImproveDialog fetch ui_prompt (Some range) w
          = (Ok tt, alerted)))
  /\ (forall r, fst (Range_getValue r alerted) = fst (Range_getValue r w))
  /\ sheets alerted = sheets w
  /\ cache alerted = cache w
  /\ props alerted = props w.
Proof.
  intros message alerted Hkey Hfetch Hcode.
  pose proof (callOpenAI_not_200 fetch (c :: k) messages response w Hfetch Hcode)
    as Hcall.
  fold message in Hcall.
  assert (Hfind : messages = typo_messages (language_or_english (props w)) text ->
                  findTypos toLowerCase fetch ui_prompt text range w
                  = (Ok tt, alerted)).
  { intros ->. unfold findTypos, bind, getProperties. rewrite Hkey.
    rewrite getCustomDictionary_run. unfold try_catch, bind.
    rewrite Hcall. reflexivity. }
  assert (Himprove : messages = grammar_messages (language_or_english (props w)) text ->
                     improveGrammar fetch ui_prompt text range w
                     = (Ok tt, alerted)).
  { intros ->. unfold improveGrammar, bind, getProperties. rewrite Hkey.
    unfold try_catch, bind. rewrite Hcall. reflexivity. }
  split; [exact Hcall |].
  split; [| split; [| auto]].
  - intros Hm. split; [exact (Hfind Hm) |]. intros Hvalue Hne.
    unfold showTypoFixDialog, bind.
    destruct (Range_getValue_run range w) as [text' Hrun].
    rewrite Hrun in Hvalue |- *. injection Hvalue as ->.
    destruct text as [| t0 text]; [contradiction |]. exact (Hfind Hm).
  - intros Hm. split; [exact (Himprove Hm) |]. intros Hvalue Hne.
    unfold showGrammarImproveDialog, bind.
    destruct (Range_getValue_run range w) as [text' Hrun].
    rewrite Hrun in Hvalue |- *. injection Hvalue as ->.
    destruct text as [| t0 text]; [contradiction |]. exact (Himprove Hm).
Qed.

(** The theorem for the status 401. *)
Lemma api_error_is_alerted_and_nothing_written_witness :
  findTypos toLowerCase_latin1 (answering 401 (js "invalid key")) cancelling
    (js "I teh") sample_range (sample_world [])
  = (Ok tt, with_shown [Alert (js "Error: API Error 401: invalid key")]
              (sample_world [])).
Proof.
  assert (Hcode : getResponseCode
            {| getResponseCode := 401; getContentText := js "invalid key" |}
          ≠ 200)
    by (vm_compute; discriminate).
  exact (proj1 (proj1 (proj2
           (api_error_is_alerted_and_nothing_written toLowerCase_latin1
              (answering 401 (js "invalid key")) cancelling (js "I teh")
              sample_range (sample_world []) (ch "s") (js "k-sample")
              (typo_messages (language_or_english (props (sample_world [])))
                 (js "I teh"))
              {| getResponseCode := 401; getContentText := js "invalid key" |}
              eq_refl eq_refl Hcode)) eq_refl)).
Defined.

(** ** No typos found *)

Lemma jsonText_nil : jsonText [] = [].
Proof. reflexivity. Qed.

Lemma parseResponse_string (text : jsstring) (w : World) :
  parseResponse (Some (JString text)) w =
    (match parse (jsonText text) with
     | Some v => Ok v
     | None => Throw (Error (js "Failed to parse OpenAI response"))
     end, w).
Proof.
  unfold parseResponse, try_catch, JSON_parse.
  destruct (parse (jsonText text)); reflexivity.
Qed.

Lemma findTypos_with_reply
    (toLowerCase : jsstring -> jsstring) (fetch : HttpRequest -> option HttpResponse)
    (ui_prompt : jsstring -> jsstring -> option jsstring)
    (text : jsstring) (range : Range) (w : World)
    (c : N) (k reply : jsstring) (result : json) :
  OPENAI_API_KEY (props w) = Some (c :: k) ->
  callOpenAI fetch (c :: k) (typo_messages (language_or_english (props w)) text) w
    = (Ok (Some (JString reply)), w) ->
  parse (jsonText reply) = Some result ->
  findTypos toLowerCase fetch ui_prompt text range w =
    try_catch
      (none <- noTypos result ;;
       if none then alert (js "No typos found in the selected text.")
       else
         typos <- Get (Some result) (js "typos") ;;
         showTypoSuggestions toLowerCase text typos (dictionary w) range)
      error_alert w.
Proof.
  intros Hkey Hcall Hparse.
  unfold findTypos, bind at 1, getProperties. rewrite Hkey.
  unfold bind at 1. rewrite getCustomDictionary_run.
  unfold try_catch, bind at 1. rewrite Hcall.
  assert (Hreply : reply ≠ []).
  { intros ->. rewrite jsonText_nil in Hparse. discriminate Hparse. }
  destruct reply as [| r0 reply]; [contradiction |].
  cbn [truthy negb]. rewrite bool_decide_eq_false_2 by discriminate. cbn [negb].
  unfold bind at 1. rewrite parseResponse_string, Hparse. reflexivity.
Qed.

(** Claim C8.  When the reply parses to an object whose [typos] is the
    empty array, as the reply [{"typos":[]}] does, [findTypos] shows the
    alert 'No typos found in the selected text.' and nothing else: no
    error, no dialog. *)
Theorem empty_typos_is_no_findings
    (toLowerCase : jsstring -> jsstring) (fetch : HttpRequest -> option HttpResponse)
    (ui_prompt : jsstring -> jsstring -> option jsstring)
    (text : jsstring) (range : Range) (w : World)
    (c : N) (k reply : jsstring) (members : list (jsstring * json)) :
  OPENAI_API_KEY (props w) = Some (c :: k) ->
  callOpenAI fetch (c :: k) (typo_messages (language_or_english (props w)) text) w
    = (Ok (Some (JString reply)), w) ->
  parse (jsonText reply) = Some (JObject members) ->
  own_property (js "typos") members = Some (JArray []) ->
  findTypos toLowerCase fetch ui_prompt text range w =
    (Ok tt, with_shown [Alert (js "No typos found in the selected text.")] w)
  /\ shown_typos (with_shown [Alert (js "No typos found in the selected text.")] w)
     = shown_typos w
  /\ parse (jsonText no_typos_reply) = Some (JObject [(js "typos", JArray [])])
  /\ own_property (js "typos") [(js "typos", JArray [])] = Some (JArray []).
Proof.
  intros Hkey Hcall Hparse Htypos. split; [| split; [| split]].
  - rewrite (findTypos_with_reply _ _ _ _ _ _ _ _ _ _ Hkey Hcall Hparse).
    unfold try_catch, bind, noTypos. cbn [truthy negb].
    unfold bind. cbn [Get ret]. rewrite Htypos. reflexivity.
  - unfold shown_typos, with_shown. cbn [ui].
    rewrite flat_map_app. simpl. apply app_nil_r.
  - vm_compute. reflexivity.
  - vm_compute. reflexivity.
Qed.

(** The theorem for the reply [{"typos":[]}]. *)
Lemma empty_typos_is_no_findings_witness :
  findTypos toLowerCase_latin1 (answering 200 no_typos_body) cancelling
    (js "I went") sample_range (sample_world [])
  = (Ok tt, with_shown [Alert (js "No typos found in the selected text.")]
              (sample_world [])).
Proof.
  apply (proj1 (empty_typos_is_no_findings toLowerCase_latin1
           (answering 200 no_typos_body) cancelling (js "I went") sample_range
           (sample_world []) (ch "s") (js "k-sample") no_typos_reply
           [(js "typos", JArray [])] eq_refl eq_refl eq_refl eq_refl)).
Defined.

(** ** The suggestions shown *)












(** ** Replacing a typo *)

Lemma strip_prefix_app (p s rest : jsstring) :
  strip_prefix p s = Some rest -> s = p ++ rest.
Proof.
  revert s. induction p as [| c p IH]; intros s H; simpl in *.
  - congruence.
  - destruct s as [| x s]; [discriminate |].
    destruct (N.eqb_spec c x) as [-> | _]; [| discriminate].
    f_equal. apply IH. exact H.
Qed.

Lemma strip_prefix_app_eq (p rest : jsstring) :
  strip_prefix p (p ++ rest) = Some rest.
Proof.
  induction p as [| c p IH]; simpl; [reflexivity |].
  rewrite N.eqb_refl. exact IH.
Qed.







Example replaceTypo_teh :
  (correctedText ∘ fst) <$>
    replaceTypo 0 (js "teh") (js "the")
      (openTypoDialog (js "I teh went to the the store")) (sample_world [])
  = Some (js "I the went to the the store").
Proof. vm_compute. reflexivity. Qed.

(** Claim C2, at the input where the script departs from it.  The word
    [e.g] is read as a pattern whose dot matches any character: in the text
    [e.g and egg] the script replaces [egg] too, where the literal
    substitution leaves it. *)
Theorem replaceTypo_reads_word_as_pattern :
  (correctedText ∘ fst) <$>
    replaceTypo 0 (js "e.g") (js "e.g.")
      (openTypoDialog (js "e.g and egg")) (sample_world [])
  = Some (js "e.g. and e.g.")
  /\ replaceAll (js "e.g and egg") (js "e.g") (js "e.g.") = js "e.g. and egg"
  /\ js "e.g. and e.g." ≠ js "e.g. and egg".
Proof.
  split; [vm_compute; reflexivity |].
  split; [vm_compute; reflexivity | vm_compute; discriminate].
Qed.

(** ** The matcher on the patterns of [findTypos] *)

Lemma orelse_None_r (a : option jsstring) : RegExp.orelse a None = a.
Proof. destruct a; reflexivity. Qed.

Lemma orelse_same (a : option jsstring) : RegExp.orelse a a = a.
Proof. destruct a; reflexivity. Qed.

Lemma rmatch_lit (p s : jsstring) (k : jsstring -> option jsstring) :
  RegExp.rmatch (RegExp.lit p) s k =
    match strip_prefix p s with
    | Some rest => k rest
    | None => None
    end.
Proof.
  revert s k. induction p as [| c p IH]; intros s k; [reflexivity |].
  destruct p as [| c' p].
  - simpl. destruct s as [| x s]; simpl; [reflexivity |].
    destruct (c =? x); reflexivity.
  - change (RegExp.lit (c :: c' :: p))
      with (RegExp.Seq (RegExp.Chr c) (RegExp.lit (c' :: p))).
    cbn [RegExp.rmatch]. destruct s as [| x s]; [reflexivity |].
    cbn [RegExp.one strip_prefix]. destruct (c =? x); [apply IH | reflexivity].
Qed.

Lemma iterate_greedy
    (step : jsstring -> (jsstring -> option jsstring) -> option jsstring)
    (p : N -> bool) (k : jsstring -> option jsstring) :
  (forall s k', step s k' = RegExp.one p s k') ->
  forall n s, (length s <= n)%nat ->
    RegExp.iterate step true k n s = longest_first p k s.
Proof.
  intros Hstep n. induction n as [| n IH]; intros s Hlen.
  - destruct s; [reflexivity | simpl in Hlen; lia].
  - cbn [RegExp.iterate]. rewrite Hstep.
    destruct s as [| c s]; [reflexivity |].
    cbn [RegExp.one longest_first]. destruct (p c); [| reflexivity].
    replace (length s <? length (c :: s))%nat with true
      by (symmetry; apply Nat.ltb_lt; simpl; lia).
    rewrite IH by (simpl in Hlen; lia). reflexivity.
Qed.

Lemma iterate_lazy
    (step : jsstring -> (jsstring -> option jsstring) -> option jsstring)
    (p : N -> bool) (k : jsstring -> option jsstring) :
  (forall s k', step s k' = RegExp.one p s k') ->
  forall n s, (length s <= n)%nat ->
    RegExp.iterate step false k n s = shortest_first p k s.
Proof.
  intros Hstep n. induction n as [| n IH]; intros s Hlen.
  - destruct s; [reflexivity | simpl in Hlen; lia].
  - cbn [RegExp.iterate]. rewrite Hstep.
    destruct s as [| c s]; [reflexivity |].
    cbn [RegExp.one shortest_first]. destruct (p c); [| reflexivity].
    replace (length s <? length (c :: s))%nat with true
      by (symmetry; apply Nat.ltb_lt; simpl; lia).
    rewrite IH by (simpl in Hlen; lia). reflexivity.
Qed.

Lemma longest_first_ext (p : N -> bool) (k k' : jsstring -> option jsstring)
    (s : jsstring) :
  (forall x, k x = k' x) -> longest_first p k s = longest_first p k' s.
Proof.
  intros Hk. induction s as [| c s IH]; simpl; [apply Hk |].
  rewrite IH, Hk. reflexivity.
Qed.

Lemma shortest_first_ext (p : N -> bool) (k k' : jsstring -> option jsstring)
    (s : jsstring) :
  (forall x, k x = k' x) -> shortest_first p k s = shortest_first p k' s.
Proof.
  intros Hk. induction s as [| c s IH]; simpl; rewrite Hk; [reflexivity |].
  rewrite IH. reflexivity.
Qed.

Lemma star_space (s : jsstring) (k : jsstring -> option jsstring) :
  RegExp.rmatch (RegExp.Star true (RegExp.Esc RegExp.ClassSpace)) s k =
    longest_first isWhiteSpace k s.
Proof.
  cbn [RegExp.rmatch]. apply iterate_greedy; [| lia].
  intros s' k'. reflexivity.
Qed.

Lemma rmatch_Seq (r1 r2 : RegExp.regex) (s : jsstring)
    (k : jsstring -> option jsstring) :
  RegExp.rmatch (RegExp.Seq r1 r2) s k =
    RegExp.rmatch r1 s (fun s1 => RegExp.rmatch r2 s1 k).
Proof. reflexivity. Qed.

Lemma any_character_one (s : jsstring) (k : jsstring -> option jsstring) :
  RegExp.rmatch any_character s k = RegExp.one (fun _ => true) s k.
Proof.
  destruct s as [| c s]; [reflexivity |]. simpl.
  destruct (isWhiteSpace c); reflexivity.
Qed.

Lemma star_any_lazy (s : jsstring) (k : jsstring -> option jsstring) :
  RegExp.rmatch (RegExp.Star false any_character) s k =
    shortest_first (fun _ => true) k s.
Proof.
  cbn [RegExp.rmatch]. apply iterate_lazy; [| lia]. apply any_character_one.
Qed.

Lemma star_any_greedy (s : jsstring) (k : jsstring -> option jsstring) :
  RegExp.rmatch (RegExp.Star true any_character) s k =
    longest_first (fun _ => true) k s.
Proof.
  cbn [RegExp.rmatch]. apply iterate_greedy; [| lia]. apply any_character_one.
Qed.

(** *** Cutting a string at a marker *)

Lemma split_at_first_app (p s pre post : jsstring) :
  split_at_first p s = Some (pre, post) -> s = pre ++ p ++ post.
Proof.
  revert pre. induction s as [| c s IH]; intros pre; simpl.
  - destruct (strip_prefix p []) as [rest |] eqn:Hp; [| discriminate].
    intros [= <- <-]. apply strip_prefix_app in Hp. exact Hp.
  - destruct (strip_prefix p (c :: s)) as [rest |] eqn:Hp.
    + intros [= <- <-]. apply strip_prefix_app in Hp. exact Hp.
    + destruct (split_at_first p s) as [[pre' post'] |]; [| discriminate].
      intros [= <- <-]. simpl. f_equal. apply IH. reflexivity.
Qed.

Lemma split_at_last_app (c : N) (s pre post : jsstring) :
  split_at_last c s = Some (pre, post) -> s = pre ++ c :: post.
Proof.
  revert pre. induction s as [| x s IH]; intros pre; simpl; [discriminate |].
  destruct (split_at_last c s) as [[pre' post'] |].
  - intros [= <- <-]. simpl. f_equal. apply IH. reflexivity.
  - destruct (N.eqb_spec c x) as [-> | _]; [| discriminate].
    intros [= <- <-]. reflexivity.
Qed.

Lemma after_first_cons (p : jsstring) (c : N) (s : jsstring) :
  strip_prefix p (c :: s) = None ->
  after_first p (c :: s) = after_first p s.
Proof.
  intros Hp. unfold after_first. simpl. rewrite Hp.
  destruct (split_at_first p s) as [[pre post] |]; reflexivity.
Qed.

Lemma after_first_app (p k s : jsstring) :
  after_first p (k ++ s) = None -> after_first p s = None.
Proof.
  induction k as [| c k IH]; [auto |]. simpl.
  unfold after_first at 1. simpl.
  destruct (strip_prefix p (c :: k ++ s)); [discriminate |].
  intros H. apply IH. unfold after_first.
  destruct (split_at_first p (k ++ s)) as [[pre post] |]; [discriminate | reflexivity].
Qed.

Lemma after_last_app (c : N) (k s : jsstring) :
  after_last c (k ++ s) = None -> after_last c s = None.
Proof.
  induction k as [| x k IH]; [auto |]. simpl.
  unfold after_last at 1. simpl. intros H. apply IH. unfold after_last.
  destruct (split_at_last c (k ++ s)) as [[pre post] |]; [discriminate | reflexivity].
Qed.

(** *** The fenced block *)

Lemma fence_not_space (c : N) (s : jsstring) :
  isWhiteSpace c = true -> strip_prefix fence (c :: s) = None.
Proof.
  intros Hc. change fence with (96 :: 96 :: [96]). cbn [strip_prefix].
  destruct (N.eqb_spec 96 c) as [<- | _]; [| reflexivity].
  vm_compute in Hc. discriminate Hc.
Qed.

(** Behind optional white space, the closing marker. *)
Lemma closing_fence (s : jsstring) :
  longest_first isWhiteSpace
    (fun s3 => RegExp.rmatch (RegExp.lit fence) s3 Some) s
  = strip_prefix fence (trimStart s).
Proof.
  induction s as [| c s IH]; cbn [longest_first trimStart].
  - rewrite rmatch_lit. reflexivity.
  - rewrite rmatch_lit. destruct (isWhiteSpace c) eqn:Hc.
    + rewrite IH, (fence_not_space c s Hc). apply orelse_None_r.
    + destruct (strip_prefix fence (c :: s)); reflexivity.
Qed.

Lemma strip_prefix_trimStart (s rest : jsstring) :
  strip_prefix fence (trimStart s) = Some rest ->
  after_first fence s = Some rest.
Proof.
  induction s as [| c s IH]; cbn [trimStart].
  - discriminate.
  - destruct (isWhiteSpace c) eqn:Hc.
    + intros H. rewrite after_first_cons by (apply fence_not_space; exact Hc).
      apply IH. exact H.
    + intros H. unfold after_first. cbn [split_at_first]. rewrite H. reflexivity.
Qed.

Lemma trimStart_cons_None (c : N) (s : jsstring) :
  strip_prefix fence (trimStart (c :: s)) = None ->
  strip_prefix fence (c :: s) = None.
Proof.
  cbn [trimStart]. destruct (isWhiteSpace c) eqn:Hc; [| auto].
  intros _. apply fence_not_space. exact Hc.
Qed.

(** Behind any text taken as short as possible, and optional white space,
    the closing marker: the match ends with the first closing marker. *)
Lemma lazy_body (s : jsstring) :
  shortest_first (fun _ => true) (fun s2 => strip_prefix fence (trimStart s2)) s
  = after_first fence s.
Proof.
  induction s as [| c s IH]; cbn [shortest_first].
  - reflexivity.
  - destruct (strip_prefix fence (trimStart (c :: s))) as [rest |] eqn:Hc.
    + symmetry. apply strip_prefix_trimStart. exact Hc.
    + cbn [RegExp.orelse]. rewrite IH. symmetry.
      apply after_first_cons. apply trimStart_cons_None. exact Hc.
Qed.

Lemma leading_space (s : jsstring) :
  longest_first isWhiteSpace (after_first fence) s = after_first fence s.
Proof.
  induction s as [| c s IH]; cbn [longest_first]; [reflexivity |].
  destruct (isWhiteSpace c) eqn:Hc; [| reflexivity].
  rewrite IH, (after_first_cons fence c s) by (apply fence_not_space; exact Hc).
  apply orelse_same.
Qed.

Lemma rmatch_fencedBlock (s : jsstring) :
  RegExp.rmatch fencedBlock s Some =
    match strip_prefix fence_json s with
    | Some u => after_first fence u
    | None => None
    end.
Proof.
  unfold fencedBlock. rewrite rmatch_Seq.
  change (js "```json") with fence_json. change (js "```") with fence.
  rewrite rmatch_lit.
  destruct (strip_prefix fence_json s) as [u |]; [| reflexivity].
  rewrite rmatch_Seq, star_space, <- leading_space.
  apply longest_first_ext. intros s1.
  rewrite rmatch_Seq.
  change (RegExp.rmatch (RegExp.Group ?r) s1 ?k) with (RegExp.rmatch r s1 k).
  rewrite star_any_lazy, <- lazy_body.
  apply shortest_first_ext. intros s2.
  rewrite rmatch_Seq, star_space. apply closing_fence.
Qed.

Lemma split_at_first_is_first (p s pre post : jsstring) :
  split_at_first p s = Some (pre, post) ->
  forall pre' post', s = pre' ++ p ++ post' -> (length pre <= length pre')%nat.
Proof.
  revert pre. induction s as [| c s IH]; intros pre; cbn [split_at_first].
  - destruct (strip_prefix p []); [| discriminate].
    intros [= <- _] pre' post' _. simpl. lia.
  - destruct (strip_prefix p (c :: s)) as [rest |] eqn:Hp.
    + intros [= <- _] pre' post' _. simpl. lia.
    + destruct (split_at_first p s) as [[pre1 post1] |] eqn:Hs; [| discriminate].
      intros [= <- <-] pre' post' Hsplit.
      destruct pre' as [| c' pre'].
      * simpl in Hsplit. rewrite Hsplit, strip_prefix_app_eq in Hp. discriminate Hp.
      * injection Hsplit as _ Hsplit. simpl.
        pose proof (IH pre1 eq_refl pre' post' Hsplit). lia.
Qed.

Lemma split_at_last_None (c : N) (s : jsstring) :
  split_at_last c s = None -> c ∉ s.
Proof.
  induction s as [| x s IH]; cbn [split_at_last]; intros H.
  - apply not_elem_of_nil.
  - destruct (split_at_last c s) as [[pre post] |]; [discriminate |].
    destruct (N.eqb_spec c x) as [-> | Hne]; [discriminate |].
    apply not_elem_of_cons. split; [exact Hne | apply IH; reflexivity].
Qed.

Lemma split_at_last_is_last (c : N) (s pre post : jsstring) :
  split_at_last c s = Some (pre, post) -> c ∉ post.
Proof.
  revert pre. induction s as [| x s IH]; intros pre; cbn [split_at_last];
    [discriminate |].
  destruct (split_at_last c s) as [[pre' post'] |] eqn:Hs.
  - intros [= _ <-]. apply (IH pre'). reflexivity.
  - destruct (c =? x); [| discriminate].
    intros [= _ <-]. apply split_at_last_None. exact Hs.
Qed.

(** *** The braces *)

Lemma greedy_to_last_brace (s : jsstring) :
  longest_first (fun _ => true)
    (fun s2 => RegExp.rmatch (RegExp.Chr (ch "}")) s2 Some) s
  = after_last (ch "}") s.
Proof.
  induction s as [| c s IH]; cbn [longest_first]; [reflexivity |].
  rewrite IH. unfold after_last. cbn [split_at_last RegExp.rmatch RegExp.one].
  destruct (split_at_last (ch "}") s) as [[pre post] |]; [reflexivity |].
  destruct (ch "}" =? c); reflexivity.
Qed.

Lemma rmatch_braces (s : jsstring) :
  RegExp.rmatch braces s Some =
    match strip_prefix [ch "{"] s with
    | Some u => after_last (ch "}") u
    | None => None
    end.
Proof.
  unfold braces. rewrite rmatch_Seq.
  change (RegExp.Chr (ch "{")) with (RegExp.lit [ch "{"]).
  rewrite rmatch_lit.
  destruct (strip_prefix [ch "{"] s) as [u |]; [| reflexivity].
  rewrite rmatch_Seq, star_any_greedy. apply greedy_to_last_brace.
Qed.

(** *** The leftmost match *)

(** A pattern that begins with the literal [opener], and whose match from
    behind the opener succeeds on a text when it does so on an end of the
    text, matches first at the first occurrence of the opener, or not at
    all. *)
Lemma exec_opener (r : RegExp.regex) (opener : jsstring)
    (g : jsstring -> option jsstring) :
  opener ≠ [] ->
  (forall s, RegExp.rmatch r s Some =
             match strip_prefix opener s with
             | Some u => g u
             | None => None
             end) ->
  (forall k u, g (k ++ u) = None -> g u = None) ->
  forall s,
    RegExp.exec r s =
      match split_at_first opener s with
      | Some (pre, u) =>
          match g u with
          | Some rest =>
              Some (RegExp.MatchResult pre
                      (take (length (opener ++ u) - length rest) (opener ++ u))
                      rest)
          | None => None
          end
      | None => None
      end.
Proof.
  intros Hopener Hmatch Hg s.
  assert (Hhere : forall s,
            RegExp.match_here r s =
              match strip_prefix opener s with
              | Some u =>
                  match g u with
                  | Some rest =>
                      Some (RegExp.MatchResult []
                              (take (length (opener ++ u) - length rest) (opener ++ u))
                              rest)
                  | None => None
                  end
              | None => None
              end).
  { intros s0. unfold RegExp.match_here. rewrite Hmatch.
    destruct (strip_prefix opener s0) as [u |] eqn:Hu; [| reflexivity].
    apply strip_prefix_app in Hu as ->. reflexivity. }
  induction s as [| c s IH].
  - cbn [RegExp.exec split_at_first]. rewrite Hhere.
    destruct opener as [| o opener]; [contradiction | reflexivity].
  - cbn [RegExp.exec split_at_first]. rewrite Hhere.
    destruct (strip_prefix opener (c :: s)) as [u |] eqn:Hu.
    + destruct (g u) as [rest |] eqn:Hgu; [reflexivity |].
      rewrite IH.
      destruct (split_at_first opener s) as [[pre' u'] |] eqn:Hs; [| reflexivity].
      assert (Hu' : g u' = None).
      { apply strip_prefix_app in Hu. apply split_at_first_app in Hs.
        destruct opener as [| o opener]; [contradiction |].
        simpl in Hu. injection Hu as _ Hu. rewrite Hs in Hu.
        assert (Hlen : (length u' <= length u)%nat).
        { apply (f_equal length) in Hu. rewrite !length_app in Hu.
          simpl in Hu. lia. }
        rewrite (app_assoc pre') in Hu.
        apply app_eq_app in Hu as [l [[Hl1 Hl2] | [Hl1 Hl2]]].
        - apply (Hg l). rewrite <- Hl2. exact Hgu.
        - assert (l = []) as ->.
          { apply (f_equal length) in Hl2. rewrite length_app in Hl2.
            apply length_zero_iff_nil. lia. }
          simpl in Hl2. rewrite Hl2. exact Hgu. }
      rewrite Hu'. reflexivity.
    + rewrite IH.
      destruct (split_at_first opener s) as [[pre' u'] |]; [| reflexivity].
      destruct (g u'); reflexivity.
Qed.

Lemma take_all_but (x post : jsstring) :
  take (length (x ++ post) - length post) (x ++ post) = x.
Proof.
  rewrite length_app.
  replace (length x + length post - length post)%nat with (length x) by lia.
  apply take_app_length.
Qed.

Lemma exec_fencedBlock (s : jsstring) :
  RegExp.exec fencedBlock s =
    match split_at_first fence_json s with
    | Some (pre, u) =>
        match split_at_first fence u with
        | Some (body, post) =>
            Some (RegExp.MatchResult pre (fence_json ++ body ++ fence) post)
        | None => None
        end
    | None => None
    end.
Proof.
  rewrite (exec_opener fencedBlock fence_json (after_first fence)).
  - destruct (split_at_first fence_json s) as [[pre u] |]; [| reflexivity].
    unfold after_first.
    destruct (split_at_first fence u) as [[body post] |] eqn:Hu; [| reflexivity].
    cbn [fmap option_fmap option_map snd].
    apply split_at_first_app in Hu as ->. do 2 f_equal.
    replace (fence_json ++ body ++ fence ++ post)
      with ((fence_json ++ body ++ fence) ++ post)
      by (rewrite <- !app_assoc; reflexivity).
    apply take_all_but.
  - discriminate.
  - apply rmatch_fencedBlock.
  - apply after_first_app.
Qed.

Lemma exec_braces (s : jsstring) :
  RegExp.exec braces s =
    match split_at_first [ch "{"] s with
    | Some (pre, u) =>
        match split_at_last (ch "}") u with
        | Some (body, post) =>
            Some (RegExp.MatchResult pre (ch "{" :: body ++ [ch "}"]) post)
        | None => None
        end
    | None => None
    end.
Proof.
  rewrite (exec_opener braces [ch "{"] (after_last (ch "}"))).
  - destruct (split_at_first [ch "{"] s) as [[pre u] |]; [| reflexivity].
    unfold after_last.
    destruct (split_at_last (ch "}") u) as [[body post] |] eqn:Hu; [| reflexivity].
    cbn [fmap option_fmap option_map snd].
    apply split_at_last_app in Hu as ->. do 2 f_equal.
    replace ([ch "{"] ++ body ++ ch "}" :: post)
      with ((ch "{" :: body ++ [ch "}"]) ++ post)
      by (simpl; rewrite <- app_assoc; reflexivity).
    apply take_all_but.
  - discriminate.
  - apply rmatch_braces.
  - apply after_last_app.
Qed.

(** *** Deleting the fence markers *)

Lemma match_here_fenceMarkers (s : jsstring) :
  RegExp.match_here fenceMarkers s =
    match strip_prefix fence_json s, strip_prefix fence s with
    | Some rest, _ => Some (RegExp.MatchResult [] fence_json rest)
    | None, Some rest => Some (RegExp.MatchResult [] fence rest)
    | None, None => None
    end.
Proof.
  unfold RegExp.match_here, fenceMarkers. cbn [RegExp.rmatch].
  change (js "```json") with fence_json. change (js "```") with fence.
  rewrite !rmatch_lit.
  destruct (strip_prefix fence_json s) as [rest |] eqn:Hj.
  - cbn [RegExp.orelse]. apply strip_prefix_app in Hj as ->.
    rewrite take_all_but. reflexivity.
  - cbn [RegExp.orelse].
    destruct (strip_prefix fence s) as [rest |] eqn:Hf; [| reflexivity].
    apply strip_prefix_app in Hf as ->. rewrite take_all_but. reflexivity.
Qed.

Lemma replace_fenceMarkers (s done : jsstring) (skip : nat) :
  RegExp.replace_loop fenceMarkers [] done s skip = delete_markers_from s skip.
Proof.
  revert done skip. induction s as [| c s IH]; intros done skip.
  - cbn [RegExp.replace_loop delete_markers_from].
    rewrite match_here_fenceMarkers. reflexivity.
  - cbn [RegExp.replace_loop delete_markers_from].
    destruct skip as [| skip]; [| apply IH].
    rewrite match_here_fenceMarkers.
    destruct (strip_prefix fence_json (c :: s)) as [rest |].
    + cbn [RegExp.matched RegExp.GetSubstitution app]. apply IH.
    + destruct (strip_prefix fence (c :: s)) as [rest |].
      * cbn [RegExp.matched RegExp.GetSubstitution app]. apply IH.
      * rewrite IH. reflexivity.
Qed.

Lemma strip_prefix_None_app (p x y : jsstring) :
  strip_prefix p (x ++ y) = None -> strip_prefix p x = None.
Proof.
  revert x. induction p as [| c p IH]; intros x; simpl; [discriminate |].
  destruct x as [| a x]; [reflexivity |]. simpl.
  destruct (c =? a); [apply IH | reflexivity].
Qed.

Lemma strip_prefix_None_longer (p q s : jsstring) :
  strip_prefix p s = None -> strip_prefix (p ++ q) s = None.
Proof.
  revert s. induction p as [| c p IH]; intros s; simpl; [discriminate |].
  destruct s as [| a s]; [reflexivity |].
  destruct (c =? a); [apply IH | reflexivity].
Qed.

(** Between the opening marker and the first closing marker nothing is
    deleted. *)
Lemma delete_markers_body (body post : jsstring) :
  split_at_first fence (body ++ fence ++ post) = Some (body, post) ->
  delete_markers_from (body ++ fence) 0 = body.
Proof.
  induction body as [| b body IH]; [reflexivity |].
  cbn [app split_at_first].
  destruct (strip_prefix fence (b :: body ++ fence ++ post)) as [rest |] eqn:Hb;
    [discriminate |].
  destruct (split_at_first fence (body ++ fence ++ post)) as [[pre' post'] |] eqn:Hs;
    [| discriminate].
  intros [= -> ->].
  cbn [delete_markers_from].
  assert (Hf : strip_prefix fence (b :: body ++ fence) = None).
  { apply (strip_prefix_None_app _ _ post).
    cbn [app]. rewrite <- app_assoc. exact Hb. }
  rewrite Hf.
  assert (Hj : strip_prefix fence_json (b :: body ++ fence) = None)
    by (apply (strip_prefix_None_longer fence (js "json")); exact Hf).
  rewrite Hj. f_equal. apply IH. reflexivity.
Qed.

Lemma delete_markers_fenced (body post : jsstring) :
  split_at_first fence (body ++ fence ++ post) = Some (body, post) ->
  delete_markers (fence_json ++ body ++ fence) = body.
Proof.
  intros H. rewrite <- (delete_markers_body body post H) at 2. reflexivity.
Qed.

(** ** The text that is parsed *)

Lemma jsonText_selected_text (response : jsstring) :
  jsonText response = selected_text response.
Proof.
  unfold jsonText, selected_text, fenced_text, braced_text, RegExp.String_match,
    RegExp.String_replace.
  rewrite exec_fencedBlock, exec_braces.
  destruct (split_at_first fence_json response) as [[pre u] |].
  - destruct (split_at_first fence u) as [[body post] |] eqn:Hu.
    + cbn [fmap option_fmap option_map RegExp.matched].
      rewrite replace_fenceMarkers. f_equal.
      apply (delete_markers_fenced body post).
      pose proof (split_at_first_app _ _ _ _ Hu) as <-. exact Hu.
    + cbn [fmap option_fmap option_map].
      destruct (split_at_first [ch "{"] response) as [[pre' u'] |]; [| reflexivity].
      destruct (split_at_last (ch "}") u') as [[body post] |]; [| reflexivity].
      cbn [fmap option_fmap option_map RegExp.matched].
      rewrite replace_fenceMarkers. reflexivity.
  - cbn [fmap option_fmap option_map].
    destruct (split_at_first [ch "{"] response) as [[pre' u'] |]; [| reflexivity].
    destruct (split_at_last (ch "}") u') as [[body post] |]; [| reflexivity].
    cbn [fmap option_fmap option_map RegExp.matched].
    rewrite replace_fenceMarkers. reflexivity.
Qed.

(** Claim C1, amended.  [findTypos] parses one text, chosen by what the
    reply contains and not by what parses: the text between the first
    [```json] and the next [```] if the reply has both; else the text from
    the first [{] to the last [}] if the reply has both; else the whole
    reply.  When that text is not JSON the reply is rejected; no other
    stage is tried. *)
Theorem one_text_is_parsed (text : jsstring) (w : World) :
  parseResponse (Some (JString text)) w =
    (match parse (selected_text text) with
     | Some result => Ok result
     | None => Throw (Error (js "Failed to parse OpenAI response"))
     end, w)
  /\ jsonText text = selected_text text.
Proof.
  split.
  - rewrite parseResponse_string, jsonText_selected_text. reflexivity.
  - apply jsonText_selected_text.
Qed.

Example fenced_reply_parsed :
  parseResponse (Some (JString fenced_reply)) (sample_world []) =
    (Ok (JObject
           [(js "typos",
             JArray [JObject [(js "word", JString (js "teh"));
                              (js "replacements", JArray [JString (js "the")])]])]),
     sample_world []).
Proof. vm_compute. reflexivity. Qed.

Example prose_reply_rejected :
  parseResponse (Some (JString (js "I found no typos."))) (sample_world []) =
    (Throw (Error (js "Failed to parse OpenAI response")), sample_world []).
Proof. vm_compute. reflexivity. Qed.

Example broken_fence_reply_rejected :
  parseResponse (Some (JString broken_fence_reply)) (sample_world []) =
    (Throw (Error (js "Failed to parse OpenAI response")), sample_world [])
  /\ selected_text broken_fence_reply = js "none"
  /\ first_valid_stage broken_fence_reply
     = Some (JObject [(js "typos", JArray [])]).
Proof. repeat split; vm_compute; reflexivity. Qed.

(** Claim C1 as stated fails: brace matching finds the object
    [{"typos":[]}] at the start of this reply, and that object parses; the
    script takes the text up to the last [}] of the reply, which does not
    parse, and rejects the reply. *)
Lemma later_object_is_not_skipped :
  brace_matched_text two_objects_reply = Some no_typos_reply
  /\ first_valid_stage two_objects_reply = Some (JObject [(js "typos", JArray [])])
  /\ parseResponse (Some (JString two_objects_reply)) (sample_world [])
     = (Throw (Error (js "Failed to parse OpenAI response")), sample_world [])
  /\ jsonText two_objects_reply = jq "{'typos':[]} (an empty list {}".
Proof.
  split; [vm_compute; reflexivity |].
  split; [vm_compute; reflexivity |].
  split; vm_compute; reflexivity.
Qed.

(** * Further properties of the script *)

(** ** The missing API key *)

Lemma showApiKeyDialog_run (ui_prompt : jsstring -> jsstring -> option jsstring)
    (w : World) :
  showApiKeyDialog ui_prompt w =
    (Ok tt,
     let asked := with_shown [Prompt (js "OpenAI API Key")
                                (js "Please enter your OpenAI API key:")] w in
     match ui_prompt (js "OpenAI API Key") (js "Please enter your OpenAI API key:") with
     | Some answer =>
         with_shown [Alert (js "API key saved successfully!")]
           (with_key (trim answer) asked)
     | None => asked
     end).
Proof.
  unfold showApiKeyDialog.
  destruct (ui_prompt _ _) as [answer|]; reflexivity.
Qed.

Lemma findTypos_key_missing (toLowerCase : jsstring -> jsstring)
    (fetch : HttpRequest -> option HttpResponse)
    (ui_prompt : jsstring -> jsstring -> option jsstring)
    (text : jsstring) (range : Range) (w : World) :
  key_missing w ->
  findTypos toLowerCase fetch ui_prompt text range w =
    showApiKeyDialog ui_prompt
      (with_shown [Alert (js "Please set your OpenAI API key first.")] w).
Proof.
  intros [H|H]; unfold findTypos, bind, getProperties; rewrite H; reflexivity.
Qed.

Lemma improveGrammar_key_missing (fetch : HttpRequest -> option HttpResponse)
    (ui_prompt : jsstring -> jsstring -> option jsstring)
    (text : jsstring) (range : Range) (w : World) :
  key_missing w ->
  improveGrammar fetch ui_prompt text range w =
    showApiKeyDialog ui_prompt
      (with_shown [Alert (js "Please set your OpenAI API key first.")] w).
Proof.
  intros [H|H]; unfold improveGrammar, bind, getProperties; rewrite H; reflexivity.
Qed.

(** Property X1. Without an API key (never set, or set to the empty string)
    [findTypos] and [improveGrammar] make no request, whatever the endpoint
    would answer: they tell the user to set the key and ask for it. A key
    entered is saved trimmed and its saving is reported; when the prompt is
    cancelled nothing is saved. In both cases the action is over: no dialog
    is shown, and cache and sheets are as they were. *)
Theorem missing_key_asks_for_key
    (toLowerCase : jsstring -> jsstring)
    (fetch : HttpRequest -> option HttpResponse)
    (ui_prompt : jsstring -> jsstring -> option jsstring)
    (text : jsstring) (range : Range) (w : World) :
  key_missing w ->
  let asked :=
    with_shown [Alert (js "Please set your OpenAI API key first.");
                Prompt (js "OpenAI API Key") (js "Please enter your OpenAI API key:")]
      w in
  let after :=
    match ui_prompt (js "OpenAI API Key") (js "Please enter your OpenAI API key:") with
    | Some answer =>
        with_shown [Alert (js "API key saved successfully!")]
          (with_key (trim answer) asked)
    | None => asked
    end in
  findTypos toLowerCase fetch ui_prompt text range w = (Ok tt, after)
  /\ improveGrammar fetch ui_prompt text range w = (Ok tt, after)
  /\ cache after = cache w
  /\ sheets after = sheets w
  /\ (ui_prompt (js "OpenAI API Key") (js "Please enter your OpenAI API key:") = None ->
      props after = props w).
Proof.
  intros Hkey asked after.
  assert (Hrun : showApiKeyDialog ui_prompt
            (with_shown [Alert (js "Please set your OpenAI API key first.")] w)
          = (Ok tt, after)).
  { rewrite showApiKeyDialog_run. subst after asked.
    destruct (ui_prompt _ _); unfold with_shown, with_key; cbn [ui props cache sheets];
      rewrite <- ?app_assoc; reflexivity. }
  split; [|split; [|split; [|split]]].
  - rewrite findTypos_key_missing by exact Hkey. exact Hrun.
  - rewrite improveGrammar_key_missing by exact Hkey. exact Hrun.
  - subst after asked. destruct (ui_prompt _ _); reflexivity.
  - subst after asked. destruct (ui_prompt _ _); reflexivity.
  - intros Hnone. subst after asked. rewrite Hnone. reflexivity.
Qed.

Lemma missing_key_asks_for_key_witness :
  findTypos toLowerCase_latin1 (answering 200 no_typos_body)
    (fun _ _ => Some (js " sk-new ")) (js "I teh") sample_range
    (world_of_dictionary [])
  = (Ok tt,
     with_shown [Alert (js "API key saved successfully!")]
       (with_key (js "sk-new")
          (with_shown
             [Alert (js "Please set your OpenAI API key first.");
              Prompt (js "OpenAI API Key") (js "Please enter your OpenAI API key:")]
             (world_of_dictionary [])))).
Proof.
  exact (proj1 (missing_key_asks_for_key toLowerCase_latin1
                  (answering 200 no_typos_body) (fun _ _ => Some (js " sk-new "))
                  (js "I teh") sample_range (world_of_dictionary [])
                  (or_introl eq_refl))).
Defined.

Lemma onOpenDocument_run (ui_prompt : jsstring -> jsstring -> option jsstring)
    (w : World) :
  onOpenDocument ui_prompt w =
    match OPENAI_API_KEY (props w) with
    | Some (_ :: _) => (Ok tt, w)
    | _ => showApiKeyDialog ui_prompt w
    end.
Proof.
  unfold onOpenDocument, bind, getProperties.
  destruct (OPENAI_API_KEY (props w)) as [[|c k]|]; reflexivity.
Qed.

(** Property X2. [showApiKeyDialog] saves whatever the user confirms,
    trimmed, and reports it as saved. When the document is opened without a
    key the user is asked for one; the next opening asks again exactly when
    the answer was blank (it is saved as the empty string, which counts as
    no key) or the prompt was cancelled. After a non-blank answer
    [onOpenDocument] does nothing any more. *)
Theorem onOpenDocument_asks_until_key_is_set
    (ui_prompt : jsstring -> jsstring -> option jsstring) (w : World) :
  key_missing w ->
  let title := js "OpenAI API Key" in
  let prompt := js "Please enter your OpenAI API key:" in
  let w1 := snd (onOpenDocument ui_prompt w) in
  (forall answer, ui_prompt title prompt = Some answer ->
     OPENAI_API_KEY (props w1) = Some (trim answer)
     /\ ui w1 = ui w ++ [Prompt title prompt; Alert (js "API key saved successfully!")]
     /\ (trim answer ≠ [] -> onOpenDocument ui_prompt w1 = (Ok tt, w1))
     /\ (trim answer = [] ->
         key_missing w1
         /\ ui (snd (onOpenDocument ui_prompt w1))
            = ui w1 ++ [Prompt title prompt; Alert (js "API key saved successfully!")]))
  /\ (ui_prompt title prompt = None ->
      w1 = with_shown [Prompt title prompt] w /\ key_missing w1).
Proof.
  intros Hkey title prompt w1.
  assert (Hw1 : w1 = snd (showApiKeyDialog ui_prompt w)).
  { subst w1. rewrite onOpenDocument_run.
    destruct Hkey as [H|H]; rewrite H; reflexivity. }
  rewrite showApiKeyDialog_run in Hw1. cbn [snd] in Hw1.
  fold title prompt in Hw1.
  split.
  - intros answer Hanswer. rewrite Hanswer in Hw1.
    assert (Hk1 : OPENAI_API_KEY (props w1) = Some (trim answer))
      by (rewrite Hw1; reflexivity).
    assert (Hui : ui w1 = ui w ++ [Prompt title prompt;
                                   Alert (js "API key saved successfully!")]).
    { rewrite Hw1. unfold with_shown, with_key. cbn [ui].
      rewrite <- app_assoc. reflexivity. }
    split; [exact Hk1|]. split; [exact Hui|]. split.
    + intros Hne. rewrite onOpenDocument_run, Hk1.
      destruct (trim answer); [contradiction|reflexivity].
    + intros He.
      assert (Hmiss : key_missing w1) by (right; rewrite Hk1, He; reflexivity).
      split; [exact Hmiss|].
      rewrite onOpenDocument_run, Hk1, He, showApiKeyDialog_run.
      fold title prompt. rewrite Hanswer.
      unfold with_shown, with_key. cbn [snd ui].
      rewrite <- app_assoc. reflexivity.
  - intros Hnone. rewrite Hnone in Hw1. split; [exact Hw1|].
    rewrite Hw1. exact Hkey.
Qed.

Lemma onOpenDocument_asks_until_key_is_set_witness :
  OPENAI_API_KEY
    (props (snd (onOpenDocument (fun _ _ => Some (js "  ")) (world_of_dictionary []))))
  = Some []
  /\ key_missing (snd (onOpenDocument (fun _ _ => Some (js "  ")) (world_of_dictionary []))).
Proof.
  pose proof (proj1 (onOpenDocument_asks_until_key_is_set
                       (fun _ _ => Some (js "  ")) (world_of_dictionary [])
                       (or_introl eq_refl)) (js "  ") eq_refl)
    as (Hkey & _ & _ & Hblank).
  split; [exact Hkey|]. exact (proj1 (Hblank eq_refl)).
Defined.

(** ** Nothing to work on *)

(** Property X3. 'Fix Typos' and 'Improve Grammar' stop at once when no
    range is selected or the selected cell reads as the empty string: one
    alert says so. The key is not looked at, no request is made, and
    properties, cache and sheets stay as they are. *)
Theorem nothing_selected_or_empty_cell
    (toLowerCase : jsstring -> jsstring)
    (fetch : HttpRequest -> option HttpResponse)
    (ui_prompt : jsstring -> jsstring -> option jsstring) (w : World) :
  showTypoFixDialog toLowerCase fetch ui_prompt None w
    = (Ok tt, with_shown [Alert (js "Please select a range first.")] w)
  /\ showGrammarImproveDialog fetch ui_prompt None w
    = (Ok tt, with_shown [Alert (js "Please select a range first.")] w)
  /\ forall range,
       fst (Range_getValue range w) = Ok [] ->
       showTypoFixDialog toLowerCase fetch ui_prompt (Some range) w
         = (Ok tt, with_shown [Alert (js "Selected cell is empty.")] w)
       /\ showGrammarImproveDialog fetch ui_prompt (Some range) w
         = (Ok tt, with_shown [Alert (js "Selected cell is empty.")] w).
Proof.
  split; [reflexivity|]. split; [reflexivity|].
  intros range Hempty.
  destruct (Range_getValue_run range w) as [text Hrun].
  rewrite Hrun in Hempty. cbn [fst] in Hempty. injection Hempty as ->.
  unfold showTypoFixDialog, showGrammarImproveDialog, bind.
  rewrite Hrun. split; reflexivity.
Qed.

Lemma nothing_selected_or_empty_cell_witness :
  showTypoFixDialog toLowerCase_latin1 (answering 200 no_typos_body) cancelling
    (Some sample_range) (sample_world [])
  = (Ok tt, with_shown [Alert (js "Selected cell is empty.")] (sample_world [])).
Proof.
  exact (proj1 (proj2 (proj2 (nothing_selected_or_empty_cell toLowerCase_latin1
                  (answering 200 no_typos_body) cancelling (sample_world [])))
                  sample_range eq_refl)).
Defined.

(** ** What an action can do to the world *)

Lemma silent_ret {A} (a : A) : silent (ret a).
Proof. intros w. reflexivity. Qed.

Lemma silent_throw {A} (e : exn) : silent (@throw A e).
Proof. intros w. reflexivity. Qed.

Lemma silent_bind {A B} (m : M A) (f : A -> M B) :
  silent m -> (forall a, silent (f a)) -> silent (bind m f).
Proof.
  intros Hm Hf w. unfold bind.
  specialize (Hm w). destruct (m w) as [[a|e] w']; cbn [snd] in Hm; subst w'.
  - apply Hf.
  - reflexivity.
Qed.

Lemma silent_try_catch {A} (body : M A) (handler : exn -> M A) :
  silent body -> (forall e, silent (handler e)) -> silent (try_catch body handler).
Proof.
  intros Hm Hf w. unfold try_catch.
  specialize (Hm w). destruct (body w) as [[a|e] w']; cbn [snd] in Hm; subst w'.
  - reflexivity.
  - apply Hf.
Qed.

Lemma silent_Get (v : value) (name : jsstring) : silent (Get v name).
Proof. intros w. destruct v as [[]|]; reflexivity. Qed.

Lemma silent_Get0 (v : value) : silent (Get0 v).
Proof. intros w. destruct v as [[]|]; reflexivity. Qed.

Lemma silent_JSON_parse (text : jsstring) : silent (JSON_parse text).
Proof. intros w. unfold JSON_parse. destruct (parse text); reflexivity. Qed.

Lemma silent_spread (v : value) : silent (spread v).
Proof. intros w. destruct v as [[]|]; reflexivity. Qed.

Lemma silent_interpolate (v : value) : silent (interpolate v).
Proof.
  intros w. destruct v as [x|]; [|reflexivity].
  unfold interpolate. destruct (toString_throws x); reflexivity.
Qed.

Lemma silent_interpolate_all (l : list json) : silent (interpolate_all l).
Proof.
  induction l as [|x l IH]; [apply silent_ret|].
  cbn [interpolate_all]. apply silent_bind; [apply silent_interpolate|].
  intros _. exact IH.
Qed.

Lemma silent_similarWords_value (toLowerCase : jsstring -> jsstring)
    (v : value) (dictWord : jsstring) :
  silent (similarWords_value toLowerCase v dictWord).
Proof. intros w. destruct v as [[]|]; reflexivity. Qed.

Lemma silent_addSimilarWords (toLowerCase : jsstring -> jsstring) (typo : json)
    (customDict : list jsstring) (allReplacements : list json) :
  silent (addSimilarWords toLowerCase typo customDict allReplacements).
Proof.
  revert allReplacements.
  induction customDict as [|dictWord customDict IH]; intros allReplacements.
  - apply silent_ret.
  - cbn [addSimilarWords].
    apply silent_bind; [apply silent_Get|]. intros word.
    apply silent_bind; [apply silent_similarWords_value|]. intros similar.
    destruct (similar && negb (includes_string allReplacements dictWord)); apply IH.
Qed.

Lemma silent_renderTypo (toLowerCase : jsstring -> jsstring)
    (customDict : list jsstring) (typo : json) (index : nat) :
  silent (renderTypo toLowerCase customDict typo index).
Proof.
  unfold renderTypo.
  apply silent_bind; [apply silent_Get|]. intros replacements.
  apply silent_bind; [apply silent_spread|]. intros allReplacements.
  apply silent_bind; [apply silent_addSimilarWords|]. intros allReplacements'.
  apply silent_bind; [apply silent_Get|]. intros word.
  apply silent_bind; [apply silent_interpolate|]. intros _.
  apply silent_bind; [apply silent_interpolate_all|]. intros _.
  apply silent_ret.
Qed.

Lemma silent_renderTypos (toLowerCase : jsstring -> jsstring)
    (customDict : list jsstring) (typos : list json) (index : nat) :
  silent (renderTypos toLowerCase customDict typos index).
Proof.
  revert index. induction typos as [|typo typos IH]; intros index.
  - apply silent_ret.
  - cbn [renderTypos].
    apply silent_bind; [apply silent_renderTypo|]. intros entry.
    apply silent_bind; [apply IH|]. intros entries. apply silent_ret.
Qed.

Lemma silent_callOpenAI (fetch : HttpRequest -> option HttpResponse)
    (apiKey : jsstring) (messages : list Message) :
  silent (callOpenAI fetch apiKey messages).
Proof. intros w. apply callOpenAI_world. Qed.

Lemma silent_parseResponse (response : value) : silent (parseResponse response).
Proof.
  unfold parseResponse. apply silent_try_catch.
  - destruct response as [[]|]; try apply silent_throw. apply silent_JSON_parse.
  - intros e. apply silent_throw.
Qed.

Lemma silent_noTypos (result : json) : silent (noTypos result).
Proof.
  unfold noTypos. destruct (negb (truthy (Some result))); [apply silent_ret|].
  apply silent_bind; [apply silent_Get|]. intros typos.
  destruct (negb (truthy typos)); apply silent_ret.
Qed.

(** An error caught is shown as one alert. *)
Lemma error_alert_run (e : exn) (w : World) :
  exists event,
    (forall d, event ≠ ModalDialog d)
    /\ error_alert e w = (Ok tt, with_shown [event] w).
Proof.
  destruct e as [message|h].
  - exists (Alert (js "Error: " ++ message)). split; [discriminate|reflexivity].
  - exists (AlertHostError h). split; [discriminate|reflexivity].
Qed.

Lemma silent_run {A} (m : M A) (w : World) :
  silent m -> m w = (fst (m w), w).
Proof. intros H. specialize (H w). destruct (m w) as [r w']. cbn in *. congruence. Qed.

Lemma showTypoSuggestions_run (toLowerCase : jsstring -> jsstring)
    (originalText : jsstring) (typos : value) (customDict : list jsstring)
    (range : Range) (w : World) :
  (exists entries,
     showTypoSuggestions toLowerCase originalText typos customDict range w =
       (Ok tt, with_target range
                 (with_shown [ModalDialog (FixTypos originalText entries)] w)))
  \/ (exists e,
     showTypoSuggestions toLowerCase originalText typos customDict range w =
       (Throw e, w)).
Proof.
  set (render := match typos with
                 | Some (JArray elements) => renderTypos toLowerCase customDict elements 0
                 | _ => throw (HostError TypeError)
                 end).
  assert (Hsilent : silent render).
  { subst render. destruct typos as [[]|]; try apply silent_throw.
    apply silent_renderTypos. }
  assert (Hrun : showTypoSuggestions toLowerCase originalText typos customDict range w =
            match fst (render w) with
            | Ok entries =>
                (Ok tt, with_target range
                          (with_shown [ModalDialog (FixTypos originalText entries)] w))
            | Throw e => (Throw e, w)
            end).
  { unfold showTypoSuggestions. fold render. unfold bind at 1.
    rewrite (silent_run render w Hsilent).
    destruct (fst (render w)); reflexivity. }
  rewrite Hrun. destruct (fst (render w)) as [entries|e].
  - left. exists entries. reflexivity.
  - right. exists e. reflexivity.
Qed.

(** The course of [findTypos] once the key is there. *)
Lemma findTypos_course
    (toLowerCase : jsstring -> jsstring)
    (fetch : HttpRequest -> option HttpResponse)
    (ui_prompt : jsstring -> jsstring -> option jsstring)
    (text : jsstring) (range : Range) (w : World) (c : N) (k : jsstring) :
  OPENAI_API_KEY (props w) = Some (c :: k) ->
  findTypos toLowerCase fetch ui_prompt text range w =
    match fst (callOpenAI fetch (c :: k)
                 (typo_messages (language_or_english (props w)) text) w) with
    | Throw e => error_alert e w
    | Ok response =>
        if negb (truthy response)
        then error_alert (Error (js "Failed to get response from OpenAI")) w
        else
          match fst (parseResponse response w) with
          | Throw e => error_alert e w
          | Ok result =>
              match fst (noTypos result w) with
              | Throw e => error_alert e w
              | Ok true => alert (js "No typos found in the selected text.") w
              | Ok false =>
                  match fst (Get (Some result) (js "typos") w) with
                  | Throw e => error_alert e w
                  | Ok typos =>
                      try_catch
                        (showTypoSuggestions toLowerCase text typos (dictionary w) range)
                        error_alert w
                  end
              end
          end
    end.
Proof.
  intros Hkey.
  unfold findTypos. unfold bind at 1. unfold getProperties. rewrite Hkey.
  unfold bind at 1. rewrite getCustomDictionary_run.
  unfold try_catch.
  set (messages := typo_messages _ _).
  unfold bind at 1.
  rewrite (silent_run _ w (silent_callOpenAI fetch (c :: k) messages)).
  destruct (fst (callOpenAI fetch (c :: k) messages w)) as [response|e];
    cbn [fst]; [|reflexivity].
  destruct (negb (truthy response)); [reflexivity|].
  unfold bind at 1.
  rewrite (silent_run _ w (silent_parseResponse response)).
  destruct (fst (parseResponse response w)) as [result|e]; cbn [fst]; [|reflexivity].
  unfold bind at 1.
  rewrite (silent_run _ w (silent_noTypos result)).
  destruct (fst (noTypos result w)) as [none|e]; cbn [fst]; [|reflexivity].
  destruct none; [reflexivity|].
  unfold bind at 1.
  rewrite (silent_run _ w (silent_Get (Some result) (js "typos"))).
  destruct (fst (Get (Some result) (js "typos") w)) as [typos|e]; reflexivity.
Qed.

(** Property X4. With an API key set, [findTypos] always ends normally and
    shows the user exactly one thing, whatever the endpoint answers: either
    one alert (an error, or 'No typos found'), after which properties, cache
    and sheets are exactly as before, or the 'Fix Typos' dialog for the text
    it was given, after which only the cache has changed: it holds the range
    as the pending target. It never writes to a sheet and never changes a
    property. *)
Theorem findTypos_shows_one_thing
    (toLowerCase : jsstring -> jsstring)
    (fetch : HttpRequest -> option HttpResponse)
    (ui_prompt : jsstring -> jsstring -> option jsstring)
    (text : jsstring) (range : Range) (w : World) (c : N) (k : jsstring) :
  OPENAI_API_KEY (props w) = Some (c :: k) ->
  (exists event,
     (forall d, event ≠ ModalDialog d)
     /\ findTypos toLowerCase fetch ui_prompt text range w
        = (Ok tt, with_shown [event] w))
  \/ (exists entries,
     findTypos toLowerCase fetch ui_prompt text range w
     = (Ok tt, with_target range
                 (with_shown [ModalDialog (FixTypos text entries)] w))).
Proof.
  intros Hkey.
  rewrite (findTypos_course toLowerCase fetch ui_prompt text range w c k Hkey).
  destruct (fst (callOpenAI _ _ _ w)) as [response|e];
    [|left; apply error_alert_run].
  destruct (negb (truthy response)); [left; apply error_alert_run|].
  destruct (fst (parseResponse response w)) as [result|e];
    [|left; apply error_alert_run].
  destruct (fst (noTypos result w)) as [[|]|e]; [| |left; apply error_alert_run].
  { left. exists (Alert (js "No typos found in the selected text.")).
    split; [discriminate|reflexivity]. }
  destruct (fst (Get (Some result) (js "typos") w)) as [typos|e];
    [|left; apply error_alert_run].
  unfold try_catch.
  destruct (showTypoSuggestions_run toLowerCase text typos (dictionary w) range w)
    as [[entries ->]|[e ->]].
  - right. exists entries. reflexivity.
  - left. apply error_alert_run.
Qed.

Lemma findTypos_shows_one_thing_witness :
  (exists event,
     (forall d, event ≠ ModalDialog d)
     /\ findTypos toLowerCase_latin1 (answering 200 bare_typo_body) cancelling
          (js "I teh") sample_range (sample_world [])
        = (Ok tt, with_shown [event] (sample_world [])))
  \/ (exists entries,
     findTypos toLowerCase_latin1 (answering 200 bare_typo_body) cancelling
       (js "I teh") sample_range (sample_world [])
     = (Ok tt, with_target sample_range
                 (with_shown [ModalDialog (FixTypos (js "I teh") entries)]
                    (sample_world [])))).
Proof.
  exact (findTypos_shows_one_thing toLowerCase_latin1 (answering 200 bare_typo_body)
           cancelling (js "I teh") sample_range (sample_world [])
           (ch "s") (js "k-sample") eq_refl).
Defined.

(** The course of [improveGrammar] once the key is there. *)
Lemma improveGrammar_course
    (fetch : HttpRequest -> option HttpResponse)
    (ui_prompt : jsstring -> jsstring -> option jsstring)
    (text : jsstring) (range : Range) (w : World) (c : N) (k : jsstring) :
  OPENAI_API_KEY (props w) = Some (c :: k) ->
  improveGrammar fetch ui_prompt text range w =
    match fst (callOpenAI fetch (c :: k)
                 (grammar_messages (language_or_english (props w)) text) w) with
    | Throw e => error_alert e w
    | Ok response =>
        if negb (truthy response)
        then error_alert (Error (js "Failed to get response from OpenAI")) w
        else
          match response with
          | Some (JString reply) =>
              (Ok tt, with_target range
                        (with_shown [ModalDialog (ImproveGrammar text (trim reply))] w))
          | _ => error_alert (HostError TypeError) w
          end
    end.
Proof.
  intros Hkey.
  unfold improveGrammar. unfold bind at 1. unfold getProperties. rewrite Hkey.
  unfold try_catch.
  set (messages := grammar_messages _ _).
  unfold bind at 1.
  rewrite (silent_run _ w (silent_callOpenAI fetch (c :: k) messages)).
  destruct (fst (callOpenAI fetch (c :: k) messages w)) as [response|e];
    cbn [fst]; [|reflexivity].
  destruct (negb (truthy response)); [reflexivity|].
  destruct response as [[| | |reply| |]|]; reflexivity.
Qed.



(** ** From the dialog to the cell *)












(** ** The reply of the language model *)

(** The completion body, read by [JSON.parse]. *)
Lemma parse_completion_body (content : jsstring) :
  parse (completion_body content) =
    Some (JObject
            [(js "choices",
              JArray [JObject
                        [(js "message",
                          JObject [(js "role", JString (js "assistant"));
                                   (js "content", JString content)])]])]).
Proof.
  unfold parse, completion_body.
  assert (Hlex : lex LStart
            (jq "{'choices':[{'message':{'role':'assistant','content':"
             ++ quote content ++ jq "}}]}")
          = Some [TLBrace; TLiteral (JString (js "choices")); TColon; TLBracket;
                  TLBrace; TLiteral (JString (js "message")); TColon;
                  TLBrace; TLiteral (JString (js "role")); TColon;
                  TLiteral (JString (js "assistant")); TComma;
                  TLiteral (JString (js "content")); TColon;
                  TLiteral (JString content);
                  TRBrace; TRBrace; TRBracket; TRBrace]).
  { let p := eval vm_compute in
        (jq "{'choices':[{'message':{'role':'assistant','content':") in
    change (jq "{'choices':[{'message':{'role':'assistant','content':") with p.
    cbn [app].
    repeat (erewrite lex_cons by (vm_compute; reflexivity)).
    rewrite lex_quote.
    let r := eval vm_compute in (lex LStart (jq "}}]}")) in
    change (lex LStart (jq "}}]}")) with r.
    reflexivity. }
  rewrite Hlex. reflexivity.
Qed.

Lemma callOpenAI_decodes (fetch : HttpRequest -> option HttpResponse)
    (apiKey : jsstring) (messages : list Message) (content : jsstring) (w : World) :
  fetch (requestOptions apiKey messages)
    = Some {| getResponseCode := 200; getContentText := completion_body content |} ->
  callOpenAI fetch apiKey messages w = (Ok (Some (JString content)), w).
Proof.
  intros Hfetch. unfold callOpenAI. rewrite Hfetch.
  cbn [getResponseCode getContentText]. change (negb (200 =? 200)) with false.
  cbv iota. unfold bind at 1. unfold JSON_parse.
  rewrite parse_completion_body. reflexivity.
Qed.









(** ** The dictionary as the script keeps it *)

Lemma trimStart_idem (s : jsstring) : trimStart (trimStart s) = trimStart s.
Proof.
  induction s as [|c s IH]; [reflexivity|].
  cbn [trimStart]. destruct (isWhiteSpace c) eqn:E; [exact IH|].
  cbn [trimStart]. rewrite E. reflexivity.
Qed.

Lemma trimStart_snoc (l : jsstring) (c : N) :
  isWhiteSpace c = false -> trimStart (l ++ [c]) = trimStart l ++ [c].
Proof.
  intros Hc. induction l as [|x l IH].
  - cbn [app trimStart]. rewrite Hc. reflexivity.
  - cbn [app trimStart]. destruct (isWhiteSpace x); [exact IH|reflexivity].
Qed.

Lemma trimEnd_cons (c : N) (t : jsstring) :
  isWhiteSpace c = false -> trimEnd (c :: t) = c :: trimEnd t.
Proof.
  intros Hc. unfold trimEnd. cbn [rev].
  rewrite (trimStart_snoc _ _ Hc), rev_app_distr. reflexivity.
Qed.

Lemma trimEnd_idem (s : jsstring) : trimEnd (trimEnd s) = trimEnd s.
Proof. unfold trimEnd. rewrite rev_involutive, trimStart_idem. reflexivity. Qed.

Lemma trimStart_head (s : jsstring) :
  trimStart s = [] \/ exists c t, trimStart s = c :: t /\ isWhiteSpace c = false.
Proof.
  induction s as [|c s IH]; [left; reflexivity|].
  cbn [trimStart]. destruct (isWhiteSpace c) eqn:E; [exact IH|].
  right. exists c, s. split; [reflexivity|exact E].
Qed.

(** Trimming a trimmed string changes nothing. *)
Lemma trim_idem (s : jsstring) : trim (trim s) = trim s.
Proof.
  unfold trim. destruct (trimStart_head s) as [->|(c & t & -> & Hc)].
  - reflexivity.
  - rewrite (trimEnd_cons c t Hc). cbn [trimStart]. rewrite Hc.
    rewrite <- (trimEnd_cons c t Hc). apply trimEnd_idem.
Qed.

Lemma dictionary_addToCustomDictionary (word : jsstring) (w : World) :
  dictionary (snd (addToCustomDictionary word w)) =
    if bool_decide (trim word = []) || includes (dictionary w) (trim word)
    then dictionary w
    else dictionary w ++ [trim word].
Proof.
  destruct (decide (trim word = [])) as [He|Hne].
  - rewrite addToCustomDictionary_noop by (left; exact He).
    rewrite bool_decide_eq_true_2 by exact He. reflexivity.
  - rewrite (bool_decide_eq_false_2 _ Hne). cbn [orb].
    destruct (includes (dictionary w) (trim word)) eqn:Hin.
    + rewrite addToCustomDictionary_noop by (right; apply includes_true; exact Hin).
      reflexivity.
    + rewrite addToCustomDictionary_new
        by (try exact Hne; apply includes_false; exact Hin).
      reflexivity.
Qed.

Lemma dictionary_removeFromCustomDictionary (index : Z) (w : World) :
  dictionary (snd (removeFromCustomDictionary index w)) =
    if ((0 <=? index) && (index <? Z.of_nat (length (dictionary w))))%Z
    then delete (Z.to_nat index) (dictionary w)
    else dictionary w.
Proof.
  rewrite removeFromCustomDictionary_run.
  destruct ((0 <=? index) && (index <? Z.of_nat (length (dictionary w))))%Z;
    reflexivity.
Qed.

Lemma well_kept_snoc (dict : list jsstring) (word : jsstring) :
  well_kept dict -> trim word ≠ [] -> trim word ∉ dict ->
  well_kept (dict ++ [trim word]).
Proof.
  intros [Hnodup Hall] Hne Hnotin. split.
  - apply NoDup_app. split; [exact Hnodup|]. split.
    + intros x Hx Hx'. apply list_elem_of_singleton in Hx'. subst x. contradiction.
    + apply NoDup_singleton.
  - apply Forall_app. split; [exact Hall|].
    apply Forall_singleton. split; [exact Hne|apply trim_idem].
Qed.

Lemma well_kept_delete (dict : list jsstring) (i : nat) :
  well_kept dict -> well_kept (delete i dict).
Proof.
  intros [Hnodup Hall]. split.
  - apply (sublist_NoDup _ dict); [exact Hnodup|apply sublist_delete].
  - apply Forall_delete. exact Hall.
Qed.

Lemma custom_dictionary_kept_add (word : jsstring) (w : World) :
  well_kept (dictionary w) ->
  well_kept (dictionary (snd (addToCustomDictionary word w))).
Proof.
  intros Hkept. rewrite dictionary_addToCustomDictionary.
  destruct (decide (trim word = [])) as [He|Hne].
  { rewrite bool_decide_eq_true_2 by exact He. exact Hkept. }
  rewrite (bool_decide_eq_false_2 _ Hne). cbn [orb].
  destruct (includes (dictionary w) (trim word)) eqn:Hin; [exact Hkept|].
  apply well_kept_snoc; [exact Hkept|exact Hne|].
  apply includes_false. exact Hin.
Qed.

Lemma custom_dictionary_kept_remove (index : Z) (w : World) :
  well_kept (dictionary w) ->
  well_kept (dictionary (snd (removeFromCustomDictionary index w))).
Proof.
  intros Hkept. rewrite dictionary_removeFromCustomDictionary.
  destruct ((0 <=? index) && (index <? Z.of_nat (length (dictionary w))))%Z;
    [apply well_kept_delete|]; exact Hkept.
Qed.

(** Property X9. The custom dictionary stays as the script builds it. If it
    holds no word twice, no empty word and no word with white space at
    either end, then the same is true after [addToCustomDictionary] of any
    word and after [removeFromCustomDictionary] of any index, and the list
    each of them returns is the dictionary then stored. A dictionary that
    was never set is such a dictionary. *)
Theorem custom_dictionary_stays_well_kept (w : World) :
  well_kept (dictionary w) ->
  (forall word,
     well_kept (dictionary (snd (addToCustomDictionary word w)))
     /\ fst (addToCustomDictionary word w)
        = Ok (dictionary (snd (addToCustomDictionary word w))))
  /\ (forall index,
     well_kept (dictionary (snd (removeFromCustomDictionary index w)))
     /\ fst (removeFromCustomDictionary index w)
        = Ok (dictionary (snd (removeFromCustomDictionary index w))))
  /\ (CUSTOM_DICTIONARY (props w) = None -> dictionary w = []).
Proof.
  intros Hkept. split; [|split].
  - intros word. split.
    + apply custom_dictionary_kept_add. exact Hkept.
    + destruct (decide (trim word = [] \/ trim word ∈ dictionary w)) as [H|H].
      * rewrite addToCustomDictionary_noop by exact H. reflexivity.
      * rewrite addToCustomDictionary_new by tauto. reflexivity.
  - intros index. split.
    + apply custom_dictionary_kept_remove. exact Hkept.
    + rewrite removeFromCustomDictionary_run.
      destruct ((0 <=? index) && (index <? Z.of_nat (length (dictionary w))))%Z;
        reflexivity.
  - intros Hnone. unfold dictionary. rewrite Hnone. reflexivity.
Qed.

Lemma well_kept_nil : well_kept [].
Proof. split; [apply NoDup_nil_2|apply Forall_nil_2]. Qed.

Lemma custom_dictionary_stays_well_kept_witness :
  well_kept (dictionary (snd (addToCustomDictionary (js " cat ")
                                (world_of_dictionary [])))).
Proof.
  exact (proj1 (proj1 (custom_dictionary_stays_well_kept (world_of_dictionary [])
                         well_kept_nil) (js " cat "))).
Defined.

(** Property X10. Adding a new word and then removing the last entry gives
    back the dictionary as it was: for a word that, trimmed, is not empty
    and not yet an entry, [removeFromCustomDictionary] at the index where
    [addToCustomDictionary] put it returns and stores the former dictionary;
    everything else in the world is as before. *)
Theorem add_then_remove_restores (word : jsstring) (w : World) :
  trim word ≠ [] -> trim word ∉ dictionary w ->
  let D := dictionary w in
  let added := snd (addToCustomDictionary word w) in
  dictionary added !! length D = Some (trim word)
  /\ removeFromCustomDictionary (Z.of_nat (length D)) added
     = (Ok D, with_dictionary D w).
Proof.
  intros Hne Hnotin D added.
  assert (Hadded : added = with_dictionary (D ++ [trim word]) w).
  { subst added. rewrite addToCustomDictionary_new by assumption. reflexivity. }
  rewrite Hadded. split.
  - rewrite dictionary_with_dictionary.
    rewrite lookup_app_r by lia. rewrite Nat.sub_diag. reflexivity.
  - rewrite removeFromCustomDictionary_run, dictionary_with_dictionary.
    rewrite length_app. cbn [length].
    replace ((0 <=? Z.of_nat (length D)) && (Z.of_nat (length D) <? Z.of_nat (length D + 1)))%Z
      with true by (symmetry; apply andb_true_iff; split; [apply Z.leb_le|apply Z.ltb_lt]; lia).
    rewrite Nat2Z.id.
    assert (Hdel : delete (length D) (D ++ [trim word]) = D).
    { rewrite delete_take_drop, take_app_length.
      rewrite drop_ge by (rewrite length_app; cbn [length]; lia).
      apply app_nil_r. }
    rewrite Hdel. reflexivity.
Qed.

Lemma add_then_remove_restores_witness :
  removeFromCustomDictionary 1
    (snd (addToCustomDictionary (js " dog ") (world_of_dictionary [js "cat"])))
  = (Ok [js "cat"], world_of_dictionary [js "cat"]).
Proof.
  assert (Hne : trim (js " dog ") ≠ []) by (vm_compute; discriminate).
  assert (Hnotin : trim (js " dog ") ∉ dictionary (world_of_dictionary [js "cat"])).
  { vm_compute. intros H. apply list_elem_of_singleton in H. discriminate H. }
  exact (proj2 (add_then_remove_restores (js " dog ") (world_of_dictionary [js "cat"])
                  Hne Hnotin)).
Defined.

(** ** The 'Custom Dictionary' dialog *)










(** ** Replies that report nothing, and replies that are malformed *)

Lemma noTypos_run (result : json) (w : World) :
  noTypos result w = (Ok (reports_nothing result), w).
Proof.
  unfold noTypos.
  destruct result as [| [|] |n|s|elements|members]; cbn [truthy negb];
    try reflexivity.
  - destruct (is_zero n); reflexivity.
  - destruct (bool_decide (s = [])); reflexivity.
  - unfold bind at 1. cbn [Get ret reports_nothing].
    destruct (own_property (js "typos") members) as [[| [|] |n|s|elements|typos]|];
      cbn [truthy negb length_is_zero]; try reflexivity.
    + destruct (is_zero n); reflexivity.
    + destruct (bool_decide (s = [])); reflexivity.
Qed.

Lemma only_TypeError_ret {A} (a : A) : only_TypeError (ret a).
Proof. intros w e H. discriminate H. Qed.

Lemma only_TypeError_throw {A} : only_TypeError (@throw A (HostError TypeError)).
Proof. intros w e H. cbn in H. congruence. Qed.

Lemma only_TypeError_bind {A B} (m : M A) (f : A -> M B) :
  only_TypeError m -> (forall a, only_TypeError (f a)) -> only_TypeError (bind m f).
Proof.
  intros Hm Hf w e. unfold bind. specialize (Hm w).
  destruct (m w) as [[a|e'] w'].
  - apply Hf.
  - cbn [fst] in *. intros H. apply Hm. congruence.
Qed.

Lemma only_TypeError_Get (v : value) (name : jsstring) : only_TypeError (Get v name).
Proof. intros w e. destruct v as [[]|]; cbn; congruence. Qed.

Lemma only_TypeError_spread (v : value) : only_TypeError (spread v).
Proof. intros w e. destruct v as [[]|]; cbn; congruence. Qed.

Lemma only_TypeError_interpolate (v : value) : only_TypeError (interpolate v).
Proof.
  intros w e. destruct v as [x|]; [|discriminate].
  unfold interpolate. destruct (toString_throws x); cbn; congruence.
Qed.

Lemma only_TypeError_interpolate_all (l : list json) :
  only_TypeError (interpolate_all l).
Proof.
  induction l as [|x l IH]; [apply only_TypeError_ret|].
  cbn [interpolate_all]. apply only_TypeError_bind; [apply only_TypeError_interpolate|].
  intros _. exact IH.
Qed.

Lemma only_TypeError_similarWords_value (toLowerCase : jsstring -> jsstring)
    (v : value) (dictWord : jsstring) :
  only_TypeError (similarWords_value toLowerCase v dictWord).
Proof. intros w e. destruct v as [[]|]; cbn; congruence. Qed.

Lemma only_TypeError_addSimilarWords (toLowerCase : jsstring -> jsstring)
    (typo : json) (customDict : list jsstring) (allReplacements : list json) :
  only_TypeError (addSimilarWords toLowerCase typo customDict allReplacements).
Proof.
  revert allReplacements.
  induction customDict as [|dictWord customDict IH]; intros allReplacements.
  - apply only_TypeError_ret.
  - cbn [addSimilarWords].
    apply only_TypeError_bind; [apply only_TypeError_Get|]. intros word.
    apply only_TypeError_bind; [apply only_TypeError_similarWords_value|].
    intros similar.
    destruct (similar && negb (includes_string allReplacements dictWord)); apply IH.
Qed.

Lemma only_TypeError_renderTypo (toLowerCase : jsstring -> jsstring)
    (customDict : list jsstring) (typo : json) (index : nat) :
  only_TypeError (renderTypo toLowerCase customDict typo index).
Proof.
  unfold renderTypo.
  apply only_TypeError_bind; [apply only_TypeError_Get|]. intros replacements.
  apply only_TypeError_bind; [apply only_TypeError_spread|]. intros allReplacements.
  apply only_TypeError_bind; [apply only_TypeError_addSimilarWords|]. intros all'.
  apply only_TypeError_bind; [apply only_TypeError_Get|]. intros word.
  apply only_TypeError_bind; [apply only_TypeError_interpolate|]. intros _.
  apply only_TypeError_bind; [apply only_TypeError_interpolate_all|]. intros _.
  apply only_TypeError_ret.
Qed.

Lemma only_TypeError_renderTypos (toLowerCase : jsstring -> jsstring)
    (customDict : list jsstring) (typos : list json) (index : nat) :
  only_TypeError (renderTypos toLowerCase customDict typos index).
Proof.
  revert index. induction typos as [|typo typos IH]; intros index.
  - apply only_TypeError_ret.
  - cbn [renderTypos].
    apply only_TypeError_bind; [apply only_TypeError_renderTypo|]. intros entry.
    apply only_TypeError_bind; [apply IH|]. intros entries. apply only_TypeError_ret.
Qed.

(** What [showTypoSuggestions] raises is a TypeError, and it raises it
    before anything is shown or remembered. *)
Lemma showTypoSuggestions_throws (toLowerCase : jsstring -> jsstring)
    (originalText : jsstring) (typos : value) (customDict : list jsstring)
    (range : Range) (w w' : World) (e : exn) :
  showTypoSuggestions toLowerCase originalText typos customDict range w = (Throw e, w') ->
  e = HostError TypeError /\ w' = w.
Proof.
  intros H.
  assert (Hw : w' = w).
  { destruct (showTypoSuggestions_run toLowerCase originalText typos customDict range w)
      as [[entries H']|[e' H']]; rewrite H' in H; congruence. }
  split; [|exact Hw].
  assert (Honly : only_TypeError
            (showTypoSuggestions toLowerCase originalText typos customDict range)).
  { unfold showTypoSuggestions. apply only_TypeError_bind.
    - destruct typos as [[]|]; try apply only_TypeError_throw.
      apply only_TypeError_renderTypos.
    - intros entries w0 e0 H0. discriminate H0. }
  apply (Honly w). rewrite H. reflexivity.
Qed.

(** Property X12. Which replies count as 'no typos'. For a reply that
    parses, [findTypos] shows 'No typos found in the selected text.' exactly
    when the parsed value reports nothing: it is not an object (a bare
    array, string, number, boolean or null), or it has no [typos] member, or
    that member is null, false, zero, the empty string, the empty array or
    an object of length zero. In every other case the value of [typos] is
    handed to [showTypoSuggestions], and the user sees the dialog or a
    TypeError alert, never the 'No typos' alert. *)
Theorem no_typos_exactly_when_nothing_reported
    (toLowerCase : jsstring -> jsstring) (fetch : HttpRequest -> option HttpResponse)
    (ui_prompt : jsstring -> jsstring -> option jsstring)
    (text : jsstring) (range : Range) (w : World)
    (c : N) (k reply : jsstring) (result : json) :
  OPENAI_API_KEY (props w) = Some (c :: k) ->
  callOpenAI fetch (c :: k) (typo_messages (language_or_english (props w)) text) w
    = (Ok (Some (JString reply)), w) ->
  parse (jsonText reply) = Some result ->
  let nothing := with_shown [Alert (js "No typos found in the selected text.")] w in
  (reports_nothing result = true ->
     findTypos toLowerCase fetch ui_prompt text range w = (Ok tt, nothing))
  /\ (reports_nothing result = false ->
      (exists members typos,
         result = JObject members
         /\ own_property (js "typos") members = Some typos
         /\ findTypos toLowerCase fetch ui_prompt text range w
            = try_catch
                (showTypoSuggestions toLowerCase text (Some typos) (dictionary w) range)
                error_alert w)
      /\ findTypos toLowerCase fetch ui_prompt text range w ≠ (Ok tt, nothing)).
Proof.
  intros Hkey Hcall Hparse nothing.
  assert (Hcourse : findTypos toLowerCase fetch ui_prompt text range w =
            if reports_nothing result then (Ok tt, nothing)
            else try_catch
                   (typos <- Get (Some result) (js "typos") ;;
                    showTypoSuggestions toLowerCase text typos (dictionary w) range)
                   error_alert w).
  { rewrite (findTypos_with_reply toLowerCase fetch ui_prompt text range w c k reply
               result Hkey Hcall Hparse).
    unfold try_catch. unfold bind at 1. rewrite noTypos_run.
    destruct (reports_nothing result); reflexivity. }
  rewrite Hcourse. split.
  - intros ->. reflexivity.
  - intros Hsome. rewrite Hsome.
    destruct result as [| | | | |members]; try discriminate Hsome.
    cbn [reports_nothing] in Hsome.
    destruct (own_property (js "typos") members) as [typos|] eqn:Htypos;
      [|discriminate Hsome].
    assert (Hget : try_catch
              (typos <- Get (Some (JObject members)) (js "typos") ;;
               showTypoSuggestions toLowerCase text typos (dictionary w) range)
              error_alert w
            = try_catch
                (showTypoSuggestions toLowerCase text (Some typos) (dictionary w) range)
                error_alert w).
    { unfold try_catch, bind. cbn [Get ret]. rewrite Htypos. reflexivity. }
    rewrite Hget. split.
    + exists members, typos. split; [reflexivity|]. split; [exact Htypos|reflexivity].
    + unfold try_catch.
      destruct (showTypoSuggestions_run toLowerCase text (Some typos) (dictionary w)
                  range w) as [[entries H]|[e H]].
      * rewrite H. intros Heq.
        apply (f_equal (fun p => ui (snd p))) in Heq.
        subst nothing. cbn [snd ui with_target with_shown] in Heq.
        apply app_inv_head in Heq. discriminate Heq.
      * pose proof (showTypoSuggestions_throws _ _ _ _ _ _ _ _ H) as [-> _].
        rewrite H. intros Heq.
        apply (f_equal (fun p => ui (snd p))) in Heq.
        subst nothing. cbn [snd ui error_alert display with_shown] in Heq.
        apply app_inv_head in Heq. discriminate Heq.
Qed.

Lemma no_typos_exactly_when_nothing_reported_witness :
  findTypos toLowerCase_latin1
    (answering 200 (completion_body (jq "[]"))) cancelling
    (js "I went") sample_range (sample_world [])
  = (Ok tt, with_shown [Alert (js "No typos found in the selected text.")]
              (sample_world [])).
Proof.
  exact (proj1 (no_typos_exactly_when_nothing_reported toLowerCase_latin1
                  (answering 200 (completion_body (jq "[]"))) cancelling
                  (js "I went") sample_range (sample_world [])
                  (ch "s") (js "k-sample") (jq "[]") (JArray [])
                  eq_refl
                  (callOpenAI_decodes _ _ _ (jq "[]") (sample_world []) eq_refl)
                  eq_refl)
               eq_refl).
Defined.

Lemma renderTypo_lacking (toLowerCase : jsstring -> jsstring)
    (customDict : list jsstring) (typo : json) (index : nat) (w : World) :
  lacks_replacements typo ->
  renderTypo toLowerCase customDict typo index w = (Throw (HostError TypeError), w).
Proof.
  intros H. unfold renderTypo.
  destruct typo as [| | | | |members]; try reflexivity.
  cbn [lacks_replacements] in H. unfold bind at 1. cbn [Get ret].
  destruct (own_property (js "replacements") members) as [[]|];
    try contradiction; reflexivity.
Qed.

Lemma renderTypos_lacking (toLowerCase : jsstring -> jsstring)
    (customDict : list jsstring) (typos : list json) (typo : json)
    (index : nat) (w : World) :
  typo ∈ typos -> lacks_replacements typo ->
  renderTypos toLowerCase customDict typos index w = (Throw (HostError TypeError), w).
Proof.
  intros Hin Hlacks. revert index.
  induction typos as [|typo0 typos IH]; intros index.
  - apply elem_of_nil in Hin. contradiction.
  - cbn [renderTypos]. unfold bind at 1.
    rewrite (silent_run _ w (silent_renderTypo toLowerCase customDict typo0 index)).
    apply elem_of_cons in Hin. destruct Hin as [<-|Hin].
    + rewrite renderTypo_lacking by exact Hlacks. reflexivity.
    + destruct (fst (renderTypo toLowerCase customDict typo0 index w))
        as [entry|e] eqn:Hhead.
      * unfold bind at 1. rewrite (IH Hin (S index)). reflexivity.
      * rewrite (only_TypeError_renderTypo _ _ _ _ w e Hhead). reflexivity.
Qed.

(** Property X13. One malformed entry withholds the whole dialog. If any
    entry of [typos] is not an object, or is an object whose [replacements]
    is missing or is neither an array nor a string, [showTypoSuggestions]
    raises a TypeError before it shows or remembers anything, however well
    formed the other entries are; [findTypos] turns it into one alert, and
    cache, sheets and properties stay as they were. *)
Theorem malformed_entry_withholds_the_dialog
    (toLowerCase : jsstring -> jsstring) (originalText : jsstring)
    (typos : list json) (typo : json) (customDict : list jsstring)
    (range : Range) (w : World) :
  typo ∈ typos -> lacks_replacements typo ->
  showTypoSuggestions toLowerCase originalText (Some (JArray typos)) customDict range w
    = (Throw (HostError TypeError), w)
  /\ try_catch
       (showTypoSuggestions toLowerCase originalText (Some (JArray typos)) customDict
          range)
       error_alert w
     = (Ok tt, with_shown [AlertHostError TypeError] w).
Proof.
  intros Hin Hlacks.
  assert (H : showTypoSuggestions toLowerCase originalText (Some (JArray typos))
                customDict range w = (Throw (HostError TypeError), w)).
  { unfold showTypoSuggestions. unfold bind at 1.
    rewrite (renderTypos_lacking toLowerCase customDict typos typo 0 w Hin Hlacks).
    reflexivity. }
  split; [exact H|]. unfold try_catch. rewrite H. reflexivity.
Qed.

Lemma malformed_entry_withholds_the_dialog_witness :
  showTypoSuggestions toLowerCase_latin1 (js "I teh")
    (Some (JArray [JObject [(js "word", JString (js "teh"));
                            (js "replacements", JArray [JString (js "the")])];
                   JObject [(js "word", JString (js "I"))]]))
    [] sample_range (sample_world [])
  = (Throw (HostError TypeError), sample_world []).
Proof.
  assert (Hin : JObject [(js "word", JString (js "I"))]
                ∈ [JObject [(js "word", JString (js "teh"));
                            (js "replacements", JArray [JString (js "the")])];
                   JObject [(js "word", JString (js "I"))]]).
  { apply list_elem_of_further, list_elem_of_here. }
  exact (proj1 (malformed_entry_withholds_the_dialog toLowerCase_latin1 (js "I teh")
                  _ _ [] sample_range (sample_world []) Hin I)).
Defined.

(** ** The replacements offered *)





(** ** The 'Fix Typos' dialog at work *)













(** ** Triggers *)

Lemma filter_on_elements {A} (P Q : A -> Prop) `{!forall x, Decision (P x)}
    `{!forall x, Decision (Q x)} (l : list A) :
  (forall x, x ∈ l -> P x <-> Q x) -> filter P l = filter Q l.
Proof.
  induction l as [|x l IH]; intros Hall; [reflexivity|].
  assert (Hl : filter P l = filter Q l).
  { apply IH. intros y Hy. apply Hall. apply list_elem_of_further. exact Hy. }
  pose proof (Hall x (list_elem_of_here x l)) as Hx.
  destruct (decide (P x)) as [HP|HP].
  - rewrite (filter_cons_True P _ _ HP), (filter_cons_True Q _ _ (proj1 Hx HP)), Hl.
    reflexivity.
  - rewrite (filter_cons_False P _ _ HP).
    rewrite (filter_cons_False Q) by (intros HQ; apply HP, Hx, HQ).
    exact Hl.
Qed.

Lemma NoDup_fmap_eq {A B} (f : A -> B) (l : list A) (x y : A) :
  NoDup (f <$> l) -> x ∈ l -> y ∈ l -> f x = f y -> x = y.
Proof.
  induction l as [|z l IH]; intros Hnodup Hx Hy Hf.
  - apply elem_of_nil in Hx. contradiction.
  - rewrite fmap_cons in Hnodup. apply NoDup_cons in Hnodup.
    destruct Hnodup as [Hz Hnodup].
    apply elem_of_cons in Hx. apply elem_of_cons in Hy.
    destruct Hx as [->|Hx], Hy as [->|Hy].
    + reflexivity.
    + exfalso. apply Hz. rewrite Hf. apply list_elem_of_fmap_2. exact Hy.
    + exfalso. apply Hz. rewrite <- Hf. apply list_elem_of_fmap_2. exact Hx.
    + exact (IH Hnodup Hx Hy Hf).
Qed.

(** The second loop deletes the triggers that carry the identifier of an
    [onOpenDocument] trigger read at the start. *)
Lemma deleteOnOpenDocument_filter (triggers installed : list Trigger) :
  deleteOnOpenDocument triggers installed =
    filter (fun t => getUniqueId t
                     ∉ getUniqueId <$> filter (fun t' => isOnOpenDocument t' = true) triggers)
      installed.
Proof.
  revert installed. induction triggers as [|t triggers IH]; intros installed.
  - cbn [deleteOnOpenDocument]. symmetry.
    rewrite (filter_on_elements _ (fun _ => True)).
    + induction installed as [|x l IHl]; [reflexivity|].
      rewrite filter_cons_True by exact I. rewrite IHl. reflexivity.
    + intros x _. split; [intros _; exact I|]. intros _ H.
      apply elem_of_nil in H. exact H.
  - cbn [deleteOnOpenDocument]. destruct (isOnOpenDocument t) eqn:Ht.
    + rewrite IH. unfold deleteTrigger. rewrite list_filter_filter.
      apply list_filter_iff. intros x.
      rewrite (filter_cons_True _ t triggers Ht), fmap_cons, not_elem_of_cons.
      tauto.
    + rewrite IH. apply list_filter_iff. intros x.
      rewrite filter_cons_False by (rewrite Ht; discriminate). reflexivity.
Qed.

Lemma deleteOnOpenDocument_all (installed : list Trigger) :
  NoDup (getUniqueId <$> installed) ->
  deleteOnOpenDocument installed installed
  = filter (fun t => isOnOpenDocument t = false) installed.
Proof.
  intros Hnodup. rewrite deleteOnOpenDocument_filter.
  apply filter_on_elements. intros x Hx. split.
  - intros Hnot. destruct (isOnOpenDocument x) eqn:E; [|reflexivity].
    exfalso. apply Hnot. apply list_elem_of_fmap_2.
    apply list_elem_of_filter. split; [exact E|exact Hx].
  - intros Hoff Hin. apply list_elem_of_fmap_1 in Hin.
    destruct Hin as (y & Hid & Hy). apply list_elem_of_filter in Hy.
    destruct Hy as [Hon Hy].
    rewrite (NoDup_fmap_eq getUniqueId installed x y Hnodup Hx Hy Hid) in Hoff.
    congruence.
Qed.

Lemma existsb_filter_off (installed : list Trigger) :
  existsb isOnOpenDocument (filter (fun t => isOnOpenDocument t = false) installed)
  = false.
Proof.
  induction installed as [|t l IH]; [reflexivity|].
  destruct (isOnOpenDocument t) eqn:E.
  - rewrite filter_cons_False by (rewrite E; discriminate). exact IH.
  - rewrite filter_cons_True by exact E. cbn [existsb]. rewrite E, IH. reflexivity.
Qed.

Lemma filter_off_id (installed : list Trigger) :
  existsb isOnOpenDocument installed = false ->
  filter (fun t => isOnOpenDocument t = false) installed = installed
  /\ filter (fun t => isOnOpenDocument t = true) installed = [].
Proof.
  induction installed as [|t l IH]; intros H; [split; reflexivity|].
  cbn [existsb] in H. apply orb_false_iff in H. destruct H as [Ht Hl].
  destruct (IH Hl) as [IH1 IH2]. split.
  - rewrite filter_cons_True by exact Ht. rewrite IH1. reflexivity.
  - rewrite filter_cons_False by (rewrite Ht; discriminate). exact IH2.
Qed.

(** Property X18. [configTriggers] toggles the [onOpenDocument] trigger, and
    only on YES. If the user answers anything but YES, the triggers stay as
    they are. On YES, when at least one [onOpenDocument] trigger is
    installed, every such trigger is deleted - also when there are several -
    and all other triggers stay, in their order; when none is installed, one
    trigger for [onOpenDocument] on opening the spreadsheet is added behind
    the others, and it is then the only one of its kind. Trigger identifiers
    are taken to be unique. *)
Theorem configTriggers_toggles
    (ui_alert : jsstring -> jsstring -> Button) (newTriggerId : jsstring)
    (installed : list Trigger) :
  NoDup (getUniqueId <$> installed) ->
  let triggerExists := existsb isOnOpenDocument installed in
  let title := js "Configure Triggers" in
  let prompt :=
    if triggerExists
    then js "The onOpenDocument trigger is already set up. Would you like to remove it?"
    else js "Would you like to set up the onOpenDocument trigger to run when the spreadsheet opens?" in
  let created := {| getUniqueId := newTriggerId;
                    getHandlerFunction := js "onOpenDocument";
                    getEventType := ON_OPEN |} in
  let kept := filter (fun t => isOnOpenDocument t = false) installed in
  configTriggers ui_alert newTriggerId installed =
    match ui_alert title prompt with
    | YES =>
        if triggerExists
        then (kept, [Ask title prompt; Tell (js "Trigger removed successfully!")])
        else (installed ++ [created],
              [Ask title prompt; Tell (js "Trigger created successfully!")])
    | _ => (installed, [Ask title prompt])
    end
  /\ existsb isOnOpenDocument kept = false
  /\ kept `sublist_of` installed
  /\ (triggerExists = false ->
      filter (fun t => isOnOpenDocument t = true) (installed ++ [created]) = [created]).
Proof.
  intros Hnodup triggerExists title prompt created kept.
  split; [|split; [apply existsb_filter_off|split; [apply sublist_filter|]]].
  - unfold configTriggers. fold triggerExists title prompt.
    destruct (ui_alert title prompt); try reflexivity.
    destruct triggerExists; [|reflexivity].
    rewrite (deleteOnOpenDocument_all installed Hnodup). reflexivity.
  - intros Hnone. rewrite filter_app.
    rewrite (proj2 (filter_off_id installed Hnone)). reflexivity.
Qed.

Lemma configTriggers_toggles_witness :
  fst (configTriggers (fun _ _ => YES) (js "t3")
         [ {| getUniqueId := js "t1"; getHandlerFunction := js "onOpenDocument";
              getEventType := ON_OPEN |};
           {| getUniqueId := js "t2"; getHandlerFunction := js "nightly";
              getEventType := CLOCK |};
           {| getUniqueId := js "t4"; getHandlerFunction := js "onOpenDocument";
              getEventType := ON_OPEN |} ])
  = [ {| getUniqueId := js "t2"; getHandlerFunction := js "nightly";
         getEventType := CLOCK |} ].
Proof.
  assert (Hnodup : NoDup (getUniqueId <$>
            [ {| getUniqueId := js "t1"; getHandlerFunction := js "onOpenDocument";
                 getEventType := ON_OPEN |};
              {| getUniqueId := js "t2"; getHandlerFunction := js "nightly";
                 getEventType := CLOCK |};
              {| getUniqueId := js "t4"; getHandlerFunction := js "onOpenDocument";
                 getEventType := ON_OPEN |} ])).
  { cbn [fmap list_fmap getUniqueId].
    repeat (apply NoDup_cons_2;
            [intros H;
             repeat (apply elem_of_cons in H; destruct H as [H|H]; [discriminate H|]);
             apply elem_of_nil in H; exact H|]).
    apply NoDup_nil_2. }
  exact (f_equal fst (proj1 (configTriggers_toggles (fun _ _ => YES) (js "t3") _ Hnodup))).
Defined.

(** Property X19. Setting the trigger up and removing it again leaves the
    triggers as they were. Starting without an [onOpenDocument] trigger, a
    YES installs one and the next YES removes exactly that one, provided the
    host gave the new trigger an identifier no other trigger has. *)
Theorem configTriggers_twice_restores
    (ui_alert : jsstring -> jsstring -> Button) (newTriggerId nextTriggerId : jsstring)
    (installed : list Trigger) :
  (forall title prompt, ui_alert title prompt = YES) ->
  existsb isOnOpenDocument installed = false ->
  NoDup (getUniqueId <$> installed) ->
  newTriggerId ∉ getUniqueId <$> installed ->
  fst (configTriggers ui_alert nextTriggerId
         (fst (configTriggers ui_alert newTriggerId installed)))
  = installed.
Proof.
  intros Hyes Hnone Hnodup Hfresh.
  set (created := {| getUniqueId := newTriggerId;
                     getHandlerFunction := js "onOpenDocument";
                     getEventType := ON_OPEN |}).
  assert (Hfirst : fst (configTriggers ui_alert newTriggerId installed)
                   = installed ++ [created]).
  { unfold configTriggers. rewrite Hyes, Hnone. reflexivity. }
  rewrite Hfirst.
  assert (Hexists : existsb isOnOpenDocument (installed ++ [created]) = true).
  { rewrite existsb_app. apply orb_true_iff. right. reflexivity. }
  assert (Hnodup' : NoDup (getUniqueId <$> installed ++ [created])).
  { rewrite fmap_app. apply NoDup_app. split; [exact Hnodup|].
    split; [|apply NoDup_singleton].
    intros x Hx Hx'. apply list_elem_of_singleton in Hx'. subst x. contradiction. }
  unfold configTriggers. rewrite Hyes, Hexists. cbn [fst].
  rewrite (deleteOnOpenDocument_all _ Hnodup'), filter_app.
  rewrite (proj1 (filter_off_id installed Hnone)).
  rewrite filter_cons_False by (change (isOnOpenDocument created) with true; discriminate).
  apply app_nil_r.
Qed.

Lemma configTriggers_twice_restores_witness :
  fst (configTriggers (fun _ _ => YES) (js "t3")
         (fst (configTriggers (fun _ _ => YES) (js "t2")
                 [ {| getUniqueId := js "t1"; getHandlerFunction := js "nightly";
                      getEventType := CLOCK |} ])))
  = [ {| getUniqueId := js "t1"; getHandlerFunction := js "nightly";
         getEventType := CLOCK |} ].
Proof.
  assert (Hnodup : NoDup (getUniqueId <$>
            [ {| getUniqueId := js "t1"; getHandlerFunction := js "nightly";
                 getEventType := CLOCK |} ])) by apply NoDup_singleton.
  assert (Hfresh : js "t2" ∉ getUniqueId <$>
            [ {| getUniqueId := js "t1"; getHandlerFunction := js "nightly";
                 getEventType := CLOCK |} ]).
  { intros H. apply list_elem_of_singleton in H. discriminate H. }
  exact (configTriggers_twice_restores (fun _ _ => YES) (js "t2") (js "t3")
           [ {| getUniqueId := js "t1"; getHandlerFunction := js "nightly";
                getEventType := CLOCK |} ]
           (fun _ _ => eq_refl) eq_refl Hnodup Hfresh).
Defined.

(** ** The language preference *)

Lemma callOpenAI_ext (fetch fetch' : HttpRequest -> option HttpResponse)
    (apiKey : jsstring) (messages : list Message) (w : World) :
  fetch' (requestOptions apiKey messages) = fetch (requestOptions apiKey messages) ->
  callOpenAI fetch' apiKey messages w = callOpenAI fetch apiKey messages w.
Proof. intros H. unfold callOpenAI. rewrite H. reflexivity. Qed.

Lemma messages_of_language_or_english (language : jsstring) (p : UserProperties)
    (text : jsstring) :
  GRAMMAR_CHECKER_LANGUAGE p = Some language ->
  typo_messages (language_or_english p) text = typo_messages language text
  /\ grammar_messages (language_or_english p) text = grammar_messages language text.
Proof.
  intros H. unfold language_or_english. rewrite H.
  destruct language; split; reflexivity.
Qed.

(** Property X20. The language preference decides the instructions sent.
    [setLanguagePreference] stores the language and confirms it with its
    first letter in upper case. From then on the one request [findTypos] and
    [improveGrammar] make is the one built for that language: what they do
    depends on the endpoint only through its answer to that request. The
    instructions are the Spanish ones for the value 'spanish' exactly; every
    other value, the empty string and unknown languages included, gives the
    English ones. *)
Theorem language_preference_selects_instructions
    (toUpperCase toLowerCase : jsstring -> jsstring)
    (fetch fetch' : HttpRequest -> option HttpResponse)
    (ui_prompt : jsstring -> jsstring -> option jsstring)
    (language text : jsstring) (range : Range) (w : World) (c : N) (k : jsstring) :
  OPENAI_API_KEY (props w) = Some (c :: k) ->
  let w' := snd (setLanguagePreference toUpperCase language w) in
  let typo_request := requestOptions (c :: k) (typo_messages language text) in
  let grammar_request := requestOptions (c :: k) (grammar_messages language text) in
  setLanguagePreference toUpperCase language w
    = (Ok tt,
       with_shown [Alert (js "Language set to " ++ toUpperCase (take 1 language)
                          ++ drop 1 language)]
         (with_language language w))
  /\ (fetch' typo_request = fetch typo_request ->
      findTypos toLowerCase fetch' ui_prompt text range w'
      = findTypos toLowerCase fetch ui_prompt text range w')
  /\ (fetch' grammar_request = fetch grammar_request ->
      improveGrammar fetch' ui_prompt text range w'
      = improveGrammar fetch ui_prompt text range w')
  /\ (language ≠ js "spanish" ->
      typo_messages language text = typo_messages (js "english") text
      /\ grammar_messages language text = grammar_messages (js "english") text)
  /\ typo_messages (js "spanish") text ≠ typo_messages (js "english") text
  /\ grammar_messages (js "spanish") text ≠ grammar_messages (js "english") text.
Proof.
  intros Hkey w' typo_request grammar_request.
  assert (Hkey' : OPENAI_API_KEY (props w') = Some (c :: k)) by exact Hkey.
  destruct (messages_of_language_or_english language (props w') text eq_refl)
    as [Htypo Hgrammar].
  split; [reflexivity|]. split; [|split; [|split; [|split]]].
  - intros Hfetch.
    rewrite !(findTypos_course toLowerCase _ ui_prompt text range w' c k Hkey').
    rewrite Htypo, (callOpenAI_ext fetch fetch' _ _ w' Hfetch). reflexivity.
  - intros Hfetch.
    rewrite !(improveGrammar_course _ ui_prompt text range w' c k Hkey').
    rewrite Hgrammar, (callOpenAI_ext fetch fetch' _ _ w' Hfetch). reflexivity.
  - intros Hne. unfold typo_messages, grammar_messages.
    rewrite (bool_decide_eq_false_2 _ Hne). split; reflexivity.
  - intros H. apply (f_equal (fun l => length <$> (content <$> l))) in H.
    vm_compute in H. discriminate H.
  - intros H. apply (f_equal (fun l => length <$> (content <$> l))) in H.
    vm_compute in H. discriminate H.
Qed.

Lemma language_preference_selects_instructions_witness :
  setLanguagePreference toUpperCase_basic_latin (js "spanish") (sample_world [])
  = (Ok tt,
     with_shown [Alert (js "Language set to Spanish")]
       (with_language (js "spanish") (sample_world []))).
Proof.
  exact (proj1 (language_preference_selects_instructions toUpperCase_basic_latin
                  toLowerCase_latin1 unreachable unreachable cancelling
                  (js "spanish") (js "hola") sample_range (sample_world [])
                  (ch "s") (js "k-sample") eq_refl)).
Defined.

(** ** Finding the sheet *)

(** Property X21. [getSheetById] returns the first sheet whose identifier,
    written in decimal, is the string asked for, and no sheet exactly when
    no sheet has that identifier; in particular the position it returns is
    one of the spreadsheet's, and the spreadsheet is not changed. *)
Theorem getSheetById_finds_first_sheet (id : jsstring) (w : World) :
  exists found,
    getSheetById id w = (Ok found, w)
    /\ match found with
       | Some i =>
           exists s,
             sheets w !! i = Some s
             /\ N_toString (getSheetId s) = id
             /\ forall j s', sheets w !! j = Some s' -> (j < i)%nat ->
                             N_toString (getSheetId s') ≠ id
       | None => forall s, s ∈ sheets w -> N_toString (getSheetId s) ≠ id
       end.
Proof.
  exists (getSheetById_from 0 (sheets w) id). split; [reflexivity|].
  rewrite getSheetById_from_list_find.
  destruct (list_find (fun s => N_toString (getSheetId s) = id) (sheets w))
    as [[i s]|] eqn:Hfind; cbn [fmap option_fmap option_map fst Nat.add].
  - apply list_find_Some in Hfind. destruct Hfind as (Hi & Hid & Hfirst).
    exists s. split; [exact Hi|]. split; [exact Hid|exact Hfirst].
  - apply list_find_None in Hfind. rewrite Forall_forall in Hfind. exact Hfind.
Qed.

(** ** The dictionary as it is stored, both ways *)

(** Property X22. What is stored as the dictionary is read back unchanged.
    For every list of strings, whatever characters they contain,
    [JSON.parse(JSON.stringify(dict))] is the array of the same strings in
    the same order; so two dictionaries that are stored as the same text are
    the same. *)
Theorem stored_dictionary_reads_back (dict dict' : list jsstring) :
  JSON.parse (stringify_strings dict) = Some (JArray (JString <$> dict))
  /\ (stringify_strings dict = stringify_strings dict' -> dict = dict').
Proof.
  split; [apply parse_stringify_strings|].
  intros H.
  assert (Heq : Some (JArray (JString <$> dict)) = Some (JArray (JString <$> dict')))
    by (rewrite <- !parse_stringify_strings, H; reflexivity).
  injection Heq as Heq. clear H. revert dict' Heq.
  induction dict as [|x dict IH]; intros [|y dict'] Heq;
    try discriminate Heq; [reflexivity|].
  rewrite !fmap_cons in Heq. injection Heq as -> Heq. f_equal.
  apply IH. exact Heq.
Qed.

(** ** Replies that cannot be used *)

(** Property X23. A reply that cannot be used ends in one error alert that
    names the reason, and nothing else happens. With a key set: when the
    call fails, the alert carries the call's error; when the message content
    is missing, null, false, zero or the empty string, both actions report
    'Failed to get response from OpenAI'; when the content is some other
    value that is not a string, or for [findTypos] a string whose selected
    text is not JSON, [findTypos] reports 'Failed to parse OpenAI response',
    while [improveGrammar] reports the TypeError of calling [trim] on it. *)
Theorem unusable_reply_is_one_error_alert
    (toLowerCase : jsstring -> jsstring)
    (fetch : HttpRequest -> option HttpResponse)
    (ui_prompt : jsstring -> jsstring -> option jsstring)
    (text : jsstring) (range : Range) (w : World) (c : N) (k : jsstring) :
  OPENAI_API_KEY (props w) = Some (c :: k) ->
  let typo_reply :=
    fst (callOpenAI fetch (c :: k)
           (typo_messages (language_or_english (props w)) text) w) in
  let grammar_reply :=
    fst (callOpenAI fetch (c :: k)
           (grammar_messages (language_or_english (props w)) text) w) in
  let no_response := Alert (js "Error: Failed to get response from OpenAI") in
  let no_parse := Alert (js "Error: Failed to parse OpenAI response") in
  (forall e, typo_reply = Throw e ->
     findTypos toLowerCase fetch ui_prompt text range w = error_alert e w)
  /\ (forall e, grammar_reply = Throw e ->
     improveGrammar fetch ui_prompt text range w = error_alert e w)
  /\ (forall response, typo_reply = Ok response -> truthy response = false ->
     findTypos toLowerCase fetch ui_prompt text range w
     = (Ok tt, with_shown [no_response] w))
  /\ (forall response, grammar_reply = Ok response -> truthy response = false ->
     improveGrammar fetch ui_prompt text range w
     = (Ok tt, with_shown [no_response] w))
  /\ (forall response, typo_reply = Ok response -> truthy response = true ->
     match response with
     | Some (JString reply) => parse (jsonText reply) = None
     | _ => True
     end ->
     findTypos toLowerCase fetch ui_prompt text range w
     = (Ok tt, with_shown [no_parse] w))
  /\ (forall response, grammar_reply = Ok response -> truthy response = true ->
     (forall reply, response ≠ Some (JString reply)) ->
     improveGrammar fetch ui_prompt text range w
     = (Ok tt, with_shown [AlertHostError TypeError] w)).
Proof.
  intros Hkey typo_reply grammar_reply no_response no_parse.
  pose proof (findTypos_course toLowerCase fetch ui_prompt text range w c k Hkey)
    as Htypos.
  pose proof (improveGrammar_course fetch ui_prompt text range w c k Hkey)
    as Hgrammar.
  fold typo_reply in Htypos. fold grammar_reply in Hgrammar.
  split; [|split; [|split; [|split; [|split]]]].
  - intros e He. rewrite Htypos, He. reflexivity.
  - intros e He. rewrite Hgrammar, He. reflexivity.
  - intros response Hr Hfalsy. rewrite Htypos, Hr, Hfalsy. reflexivity.
  - intros response Hr Hfalsy. rewrite Hgrammar, Hr, Hfalsy. reflexivity.
  - intros response Hr Htruthy Hbad. rewrite Htypos, Hr, Htruthy. cbn [negb].
    assert (Hparse : parseResponse response w
                     = (Throw (Error (js "Failed to parse OpenAI response")), w)).
    { destruct response as [[| | |reply| |]|]; try reflexivity.
      rewrite parseResponse_string, Hbad. reflexivity. }
    rewrite Hparse. reflexivity.
  - intros response Hr Htruthy Hbad. rewrite Hgrammar, Hr, Htruthy. cbn [negb].
    destruct response as [[| | |reply| |]|]; try reflexivity.
    exfalso. exact (Hbad reply eq_refl).
Qed.

Lemma unusable_reply_is_one_error_alert_witness :
  findTypos toLowerCase_latin1 (answering 200 (completion_body (js "no typos")))
    cancelling (js "I went") sample_range (sample_world [])
  = (Ok tt, with_shown [Alert (js "Error: Failed to parse OpenAI response")]
              (sample_world [])).
Proof.
  pose proof (unusable_reply_is_one_error_alert toLowerCase_latin1
                (answering 200 (completion_body (js "no typos"))) cancelling
                (js "I went") sample_range (sample_world [])
                (ch "s") (js "k-sample") eq_refl)
    as (_ & _ & _ & _ & H & _).
  apply (H (Some (JString (js "no typos")))).
  - exact (f_equal fst (callOpenAI_decodes _ _ _ (js "no typos") (sample_world [])
                          eq_refl)).
  - reflexivity.
  - reflexivity.
Defined.

(** ** 'Fix Typos' from the selection to the cell *)


